(** * Pokédex viewer ([src/app/page.tsx]): model and verified properties

    The page component paginates a creature API, merges every fetched page
    into an id-keyed store, shows short-lived shader effects on a card and
    opens a modal with the damage relations of a type.  This development
    embeds the logic of that component:

    - [JsMap], [JsArray]: the two JavaScript containers the code leans on
      (an insertion-ordered [Map], and [Array.prototype.sort] / [join]);
    - [Store]: the functional update passed to [setPokemonData];
    - [DataClient], [ViewRoot]: the page fetch, the React state it drives,
      the intersection observer and the three-way render;
    - [Effects]: [moveTypeEffects], [handleMoveClick] and its timers, and
      the life of a card between mount and unmount;
    - [Overlay]: [fetchTypeDetails] and [TypeModal];
    - [CardMarkup], [PokemonImage], [CardView], [DarkMode]: the label
      and the element id of a card, its sprite, its image slot, and the
      dark mode toggle.

    Numbers that the code uses as identifiers and as clock readings are
    integers here ([Z]): the API serves integral ids, and on them the
    comparator [a.id - b.id] is exact. *)

From stdpp Require Import base tactics option list sorting strings pretty gmap.
From Stdlib Require Import ZArith Lia Ascii.

Local Open Scope Z_scope.

(** ** Data model (the two TypeScript interfaces) *)

Record TypeRef := { tr_name : string; tr_url : string }.

Record Move := { mv_name : string; mv_type : string; mv_url : string }.

Record Pokemon := {
  id : Z;
  name : string;
  types : list TypeRef;
  moves : list Move;
  sprite : string;
  shinySprite : string;
}.

Record DamageRelations := {
  doubleDamageFrom : list string;
  doubleDamageTo : list string;
  halfDamageFrom : list string;
  halfDamageTo : list string;
  noDamageFrom : list string;
  noDamageTo : list string;
}.

Record PType := { ty_name : string; damageRelations : DamageRelations }.

(** ** JavaScript [Map], keyed by numbers

    A [Map] remembers the order in which keys were first inserted;
    [set] on a key that is present replaces the value where it stands. *)
Module JsMap.
Section js_map.
Context {V : Type}.

Definition t := list (Z * V).

Definition empty : t := [].

Fixpoint set (k : Z) (v : V) (m : t) : t :=
  match m with
  | [] => [(k, v)]
  | (k', v') :: m' =>
      if decide (k = k') then (k, v) :: m' else (k', v') :: set k v m'
  end.

Fixpoint get (k : Z) (m : t) : option V :=
  match m with
  | [] => None
  | (k', v') :: m' => if decide (k = k') then Some v' else get k m'
  end.

(** [new Map(iterable)]: one [set] per entry, left to right. *)
Definition from_entries (es : list (Z * V)) : t :=
  foldl (λ m e, set e.1 e.2 m) empty es.

(** [map.values()], in insertion order. *)
Definition values (m : t) : list V := m.*2.

Definition keys (m : t) : list Z := m.*1.
End js_map.
Global Arguments t : clear implicits.
End JsMap.

(** ** JavaScript arrays: [sort] with a comparator, and [join] *)
Module JsArray.
Section sort.
Context {A : Type} (compareFn : A → A → Z).

(** [Array.prototype.sort] is stable (ES2019): an element is placed in
    front of the first one it does not compare greater than. *)
Fixpoint sort_insert (x : A) (l : list A) : list A :=
  match l with
  | [] => [x]
  | y :: l' =>
      if decide (compareFn x y ≤ 0) then x :: l else y :: sort_insert x l'
  end.

Definition sort (l : list A) : list A := foldr sort_insert [] l.
End sort.

(** [arr.join(sep)] on an array of strings. *)
Fixpoint join (sep : string) (l : list string) : string :=
  match l with
  | [] => ""
  | [x] => x
  | x :: l' => x +:+ sep +:+ join sep l'
  end.
End JsArray.

(** ** AggregationStore: the updater given to [setPokemonData] *)
Module Store.
(** [(prevData) => { ... }] of [fetchPokemon], with [pokemonDetails]
    as second argument. *)
Definition merge (prevData pokemonDetails : list Pokemon) : list Pokemon :=
  let newData := prevData ++ pokemonDetails in
  let uniqueData :=
    JsMap.values (JsMap.from_entries ((λ item, (id item, item)) <$> newData)) in
  JsArray.sort (λ a b, id a - id b) uniqueData.

(** The entries of a sequence that carry a given id, and the last of
    them: the vocabulary of the statements about [merge]. *)
Definition with_id (i : Z) (l : list Pokemon) : list Pokemon :=
  filter (λ e, id e = i) l.

Definition last_by_id (i : Z) (l : list Pokemon) : option Pokemon :=
  last (with_id i l).

(** A card with nothing but an id, for the examples. *)
Definition bare (i : Z) : Pokemon :=
  {| id := i; name := ""; types := []; moves := []; sprite := ""; shinySprite := "" |}.

(** The same id with another name: tells the replaced entry from the
    replacing one. *)
Definition named (i : Z) (n : string) : Pokemon :=
  {| id := i; name := n; types := []; moves := []; sprite := ""; shinySprite := "" |}.
End Store.

(** ** DataClient: one page of the list endpoint, resolved to entities *)
Module DataClient.
(** The JSON bodies, with the fields the code reads. *)
Record Summary := { su_name : string; su_url : string }.

Record MoveSlot := { ms_name : string; ms_url : string }.

Record Details := {
    d_id : Z;
    d_name : string;
    d_types : list TypeRef;
    d_moves : list MoveSlot;
    d_front_default : string;
    d_front_shiny : string;
  }.

Record MoveDetails := { md_name : string; md_type_name : string }.

Record TypeDetails := {
    td_name : string;
    double_damage_from : list string;
    double_damage_to : list string;
    half_damage_from : list string;
    half_damage_to : list string;
    no_damage_from : list string;
    no_damage_to : list string;
  }.

(** What [await fetch(..)] followed by [await res.json()] and the reads
    of the body's fields give: [None] when the promise rejects or a read
    throws.  The list endpoint is addressed by [limit] and [offset], the
    others by the url found in an earlier body. *)
Record Network := {
    get_list : Z → Z → option (list Summary);
    get_pokemon : string → option Details;
    get_move : string → option MoveDetails;
    get_type : string → option TypeDetails;
  }.

Inductive PageResult :=
  | NoMorePages
  | PageLoaded (pokemonDetails : list Pokemon)
  | PageFailed.

Section fetch.
Context (net : Network).

(** The inner [async (move) => ...]. *)
Definition resolve_move (move : MoveSlot) : option Move :=
  moveDetails ← get_move net (ms_url move);
  Some {| mv_name := md_name moveDetails;
          mv_type := md_type_name moveDetails;
          mv_url := ms_url move |}.

(** The outer [async (pokemon) => ...]; [Promise.all] over the first
    three moves settles with all the values or rejects. *)
Definition resolve_pokemon (pokemon : Summary) : option Pokemon :=
  details ← get_pokemon net (su_url pokemon);
  moves ← mapM resolve_move (take 3 (d_moves details));
  Some {| id := d_id details;
          name := d_name details;
          types := d_types details;
          moves := moves;
          sprite := d_front_default details;
          shinySprite := d_front_shiny details |}.

(** The body of the [try] block up to the state update. *)
Definition fetchPage (page : Z) : PageResult :=
  let limit := 20 in
  let offset := (page - 1) * limit in
  match get_list net limit offset with
  | None => PageFailed
  | Some results =>
      if decide (length results = 0%nat) then NoMorePages
      else match mapM resolve_pokemon results with
           | None => PageFailed
           | Some pokemonDetails => PageLoaded pokemonDetails
           end
  end.

(** Some request of the page fetch for [page] does not succeed: the
    list itself, the details of a listed item, or one of the first
    three moves of a listed item. *)
Inductive sub_request_fails (page : Z) : Prop :=
  | list_fails :
      get_list net 20 ((page - 1) * 20) = None →
      sub_request_fails page
  | details_fail results item :
      get_list net 20 ((page - 1) * 20) = Some results →
      item ∈ results →
      get_pokemon net (su_url item) = None →
      sub_request_fails page
  | move_fails results item details move :
      get_list net 20 ((page - 1) * 20) = Some results →
      item ∈ results →
      get_pokemon net (su_url item) = Some details →
      move ∈ take 3 (d_moves details) →
      get_move net (ms_url move) = None →
      sub_request_fails page.

(** [fetchTypeDetails]: the [catch] logs and returns [null]. *)
Definition fetchTypeDetails (url : string) : option PType :=
  data ← get_type net url;
  Some {| ty_name := td_name data;
          damageRelations :=
            {| doubleDamageFrom := double_damage_from data;
               doubleDamageTo := double_damage_to data;
               halfDamageFrom := half_damage_from data;
               halfDamageTo := half_damage_to data;
               noDamageFrom := no_damage_from data;
               noDamageTo := no_damage_to data |} |}.
End fetch.
End DataClient.

(** ** DetailOverlay: what [TypeModal] puts on screen *)
Module Overlay.
(** [s || "None"]: the empty string is the only falsy string. *)
Definition or_None (s : string) : string :=
  match s with
  | EmptyString => "None"
  | _ => s
  end.

(** [list.join(", ") || "None"]. *)
Definition show_relation (l : list string) : string :=
  or_None (JsArray.join ", " l).

(** The modal: its title and its paragraphs, each under a heading. *)
Record ModalView := { title : string; sections : list (string * string) }.

Definition TypeModal (type : option PType) : option ModalView :=
  match type with
  | None => None
  | Some type =>
      Some {| title := ty_name type;
              sections :=
                [ ("Weaknesses:",
                   show_relation (doubleDamageFrom (damageRelations type)));
                  ("Strengths:",
                   show_relation (doubleDamageTo (damageRelations type)));
                  ("Resistances:",
                   show_relation (halfDamageFrom (damageRelations type)));
                  ("Not very effective against:",
                   show_relation (halfDamageTo (damageRelations type))) ] |}
  end.

(** The six relation lists of a type, in the order of the interface. *)
Definition six_relations : list (DamageRelations → list string) :=
  [ doubleDamageFrom; doubleDamageTo; halfDamageFrom; halfDamageTo;
    noDamageFrom; noDamageTo ].

(** The texts on display when the modal shows [type]. *)
Definition displayed (type : PType) : list string :=
  match TypeModal (Some type) with
  | Some view => (sections view).*2
  | None => []
  end.

(** The water type as the API serves it. *)
Definition water : PType :=
  {| ty_name := "water";
     damageRelations :=
       {| doubleDamageFrom := ["grass"; "electric"];
          doubleDamageTo := ["fire"; "ground"; "rock"];
          halfDamageFrom := ["fire"; "water"; "ice"; "steel"];
          halfDamageTo := ["water"; "grass"; "dragon"];
          noDamageFrom := [];
          noDamageTo := [] |} |}.
End Overlay.

(** ** ViewRoot: the state of [Component], its fetch and its render *)
Module ViewRoot.
Import DataClient.

(** The [useState] cells. *)
Record State := {
    pokemonData : list Pokemon;
    loading : bool;
    error : option string;
    selectedType : option PType;
    hasMore : bool;
    page : Z;
  }.

Definition initial : State :=
  {| pokemonData := []; loading := false; error := None;
     selectedType := None; hasMore := true; page := 1 |}.

Definition setPokemonData (v : list Pokemon) (st : State) : State :=
  {| pokemonData := v; loading := loading st; error := error st;
     selectedType := selectedType st; hasMore := hasMore st; page := page st |}.

Definition setLoading (v : bool) (st : State) : State :=
  {| pokemonData := pokemonData st; loading := v; error := error st;
     selectedType := selectedType st; hasMore := hasMore st; page := page st |}.

Definition setError (v : option string) (st : State) : State :=
  {| pokemonData := pokemonData st; loading := loading st; error := v;
     selectedType := selectedType st; hasMore := hasMore st; page := page st |}.

Definition setSelectedType (v : option PType) (st : State) : State :=
  {| pokemonData := pokemonData st; loading := loading st; error := error st;
     selectedType := v; hasMore := hasMore st; page := page st |}.

Definition setHasMore (v : bool) (st : State) : State :=
  {| pokemonData := pokemonData st; loading := loading st; error := error st;
     selectedType := selectedType st; hasMore := v; page := page st |}.

Definition setPage (v : Z) (st : State) : State :=
  {| pokemonData := pokemonData st; loading := loading st; error := error st;
     selectedType := selectedType st; hasMore := hasMore st; page := v |}.

Definition failure_message : string :=
  "Failed to fetch Pokémon data. Please try again later.".

(** The state while the requests of [fetchPokemon] are pending: only
    [setLoading(true)] has run. *)
Definition fetch_outstanding (st : State) : State := setLoading true st.

(** The state once [fetchPokemon] has settled.  The three exits of the
    function: the early [return] on an empty list, the end of the [try]
    block, and the [catch]. *)
Definition fetchPokemon (net : Network) (st : State) : State :=
  let st := setLoading true st in
  match fetchPage net (page st) with
  | NoMorePages => setHasMore false st
  | PageLoaded pokemonDetails =>
      setLoading false
        (setPokemonData (Store.merge (pokemonData st) pokemonDetails) st)
  | PageFailed =>
      setLoading false (setError (Some failure_message) st)
  end.

(** [handleTypeClick]. *)
Definition handleTypeClick (net : Network) (typeUrl : string) (st : State) : State :=
  match fetchTypeDetails net typeUrl with
  | Some typeDetails => setSelectedType (Some typeDetails) st
  | None => st
  end.

(** What [Component] returns: one of its three [return]s.  The grid
    carries the cards, whether the line "Loading more Pokémon..." is
    under them, and the modal. *)
Inductive View :=
  | LoadingScreen
  | ErrorScreen (message : string)
  | GridView (cards : list Pokemon) (loadingMore : bool)
             (modal : option Overlay.ModalView).

Definition Component (st : State) : View :=
  if loading st then LoadingScreen
  else match error st with
       | Some (String _ _ as message) => ErrorScreen message
       | _ => GridView (pokemonData st) (loading st)
                       (Overlay.TypeModal (selectedType st))
       end.

(** The cards on screen. *)
Definition cards_shown (v : View) : list Pokemon :=
  match v with
  | GridView cards _ _ => cards
  | _ => []
  end.

(** A loading indicator is on screen: the full-screen one, or the line
    under the grid. *)
Definition loading_indicator (v : View) : bool :=
  match v with
  | LoadingScreen => true
  | GridView _ loadingMore _ => loadingMore
  | ErrorScreen _ => false
  end.

(** [lastPokemonElementRef]: an observer watches the last card when the
    grid is rendered with at least one card and [loading] is off. *)
Definition observing (st : State) : bool :=
  negb (loading st) &&
  match Component st with
  | GridView (_ :: _) _ _ => true
  | _ => false
  end.

(** The callback given to [IntersectionObserver]. *)
Definition observer_callback (isIntersecting : bool) (st : State) : State :=
  if isIntersecting && hasMore st then setPage (page st + 1) st else st.

(** An intersection report leads to a page fetch: [fetchPokemon] is
    rebuilt, and the effect that calls it runs again, exactly when
    [page] changes. *)
Definition fetch_triggered (isIntersecting : bool) (st : State) : bool :=
  observing st && bool_decide (page (observer_callback isIntersecting st) ≠ page st).

Definition intersect (net : Network) (st : State) (isIntersecting : bool) : State :=
  if observing st then
    let st' := observer_callback isIntersecting st in
    if decide (page st' = page st) then st' else fetchPokemon net st'
  else st.

(** One event in the life of the view: the effect that runs the page
    fetch, a report of the observer, a click on a type badge, the modal's
    close button.  The network may answer differently each time. *)
Inductive step : State → State → Prop :=
| step_fetch net st : step st (fetchPokemon net st)
| step_intersect net st isIntersecting :
    step st (intersect net st isIntersecting)
| step_type_click net typeUrl st : step st (handleTypeClick net typeUrl st)
| step_close st : step st (setSelectedType None st).

Definition reachable (st : State) : Prop := rtc step initial st.

(** The part of [handleTypeClick] after its [await]: it runs when the
    answer to the click's request arrives, which need not be in the order
    of the clicks. *)
Definition typeDetailsArrived (typeDetails : option PType) (st : State) : State :=
  match typeDetails with
  | Some typeDetails => setSelectedType (Some typeDetails) st
  | None => st
  end.
End ViewRoot.

(** ** EffectDispatcher: [moveTypeEffects], [handleMoveClick], timers *)
Module Effects.
Inductive ShaderPreset :=
  | blink | duotone | sinewave | rgbGlitch | hueShift | shine | spring
  | slitScanTransition | halftone | warpTransition | rainbow | pixelate
  | tritone | glitch | rgbShift | uvGradient | focusTransition
  | pixelateTransition.

Global Instance ShaderPreset_eq_dec : EqDecision ShaderPreset.
  Proof. solve_decision. Defined.

(** The object literal, entry by entry. *)
Definition moveTypeEffects_entries : list (string * ShaderPreset) :=
  [ ("normal", rgbShift); ("fire", duotone); ("water", sinewave);
    ("electric", rgbGlitch); ("grass", hueShift); ("ice", shine);
    ("fighting", spring); ("poison", slitScanTransition);
    ("ground", halftone); ("flying", warpTransition);
    ("psychic", rainbow); ("bug", pixelate); ("rock", tritone);
    ("ghost", glitch); ("dragon", rgbShift); ("dark", uvGradient);
    ("steel", focusTransition); ("fairy", pixelateTransition) ].

(** [moveTypeEffects], read at its declared type
    [Record<string, ShaderPreset>]: the entries of the literal.  Under a
    name of [Object_prototype_keys] below, the read in the source finds a
    member of [Object.prototype] and not [undefined]; the statements that
    name the effect of a move leave these names out. *)
Definition moveTypeEffects : gmap string ShaderPreset :=
  list_to_map moveTypeEffects_entries.

(** The state of one [PokemonCard], and the callbacks of its
    [setTimeout]s that have not run yet, by the time they are due.  Each
    of these callbacks is [() => setActiveEffect(null)]. *)
Record Card := { activeEffect : option ShaderPreset; timers : list Z }.

Definition idle : Card := {| activeEffect := None; timers := [] |}.

Definition setActiveEffect (v : option ShaderPreset) (c : Card) : Card :=
  {| activeEffect := v; timers := timers c |}.

Definition setTimeout (now delay : Z) (c : Card) : Card :=
  {| activeEffect := activeEffect c; timers := timers c ++ [now + delay] |}.

Definition handleMoveClick (now : Z) (move : Move) (c : Card) : Card :=
  let effect := default glitch (moveTypeEffects !! mv_type move) in
  setTimeout now 2000 (setActiveEffect (Some effect) c).

(** The event loop at time [now]: the callbacks that are due run and
    leave the queue. *)
Definition run_timers (now : Z) (c : Card) : Card :=
  let due := filter (λ d, d ≤ now) (timers c) in
  let c' := foldl (λ c _, setActiveEffect None c) c due in
  {| activeEffect := activeEffect c'; timers := filter (λ d, now < d) (timers c) |}.

(** A click on a move button at time [now]; callbacks due by then have
    run. *)
Definition click (now : Z) (move : Move) (c : Card) : Card :=
  handleMoveClick now move (run_timers now c).

(** A session on a fresh card: clicks in the order of their times, then
    the card as it stands at time [now]. *)
Definition play (clicks : list (Z * Move)) : Card :=
  foldl (λ c e, click e.1 e.2 c) idle clicks.

Definition card_at (clicks : list (Z * Move)) (now : Z) : Card :=
  run_timers now (play clicks).

(** What the card shows in its image slot. *)
Inductive ImageSlot := VFXImg (shader : ShaderPreset) | PokemonImage.

Definition image_slot (c : Card) : ImageSlot :=
  match activeEffect c with
  | Some effect => VFXImg effect
  | None => PokemonImage
  end.

(** A move of a given type. *)
Definition move_of_type (type : string) : Move :=
  {| mv_name := "move"; mv_type := type; mv_url := "" |}.

(** The property names that every object literal inherits from
    [Object.prototype]. *)
Definition Object_prototype_keys : list string :=
  [ "constructor"; "__defineGetter__"; "__defineSetter__"; "hasOwnProperty";
    "__lookupGetter__"; "__lookupSetter__"; "isPrototypeOf";
    "propertyIsEnumerable"; "toString"; "valueOf"; "__proto__";
    "toLocaleString" ].

(** What happens to a card.  Besides the clicks on its moves, the card
    leaves and enters the screen: [Component] returns the loading screen
    while a page fetch is outstanding and the error screen after a failure,
    and either takes every [PokemonCard] down with its state; a card of a
    later grid is a new one, in its initial state.  The callbacks that an
    unmounted card has left behind change no state. *)
Inductive Event :=
  | MoveClick (move : Move)
  | Unmount
  | Mount.

(** The card after an event at time [now]; [None] is the card that is not
    on screen.  Such a card has no button to click; and a mount finds no
    card on screen, so that the case of a mounted one is of no account. *)
Definition handle (now : Z) (event : Event) (o : option Card) : option Card :=
  match event, o with
  | MoveClick move, Some c => Some (click now move c)
  | MoveClick _, None => None
  | Unmount, _ => None
  | Mount, None => Some idle
  | Mount, Some c => Some c
  end.

(** The life of a card from its first mount: all its events, in the order
    of their times. *)
Definition session (events : list (Z * Event)) : option Card :=
  foldl (λ o e, handle e.1 e.2 o) (Some idle) events.

(** The image slot at time [now], when [events] is all that has happened
    to the card until then. *)
Definition on_screen (events : list (Z * Event)) (now : Z) : option ImageSlot :=
  (λ c, image_slot (run_timers now c)) <$> session events.

(** No move of the session has a type that [Object.prototype] answers
    for. *)
Definition modelled (events : list (Z * Event)) : Prop :=
  Forall (λ e, match e.2 with
               | MoveClick move => mv_type move ∉ Object_prototype_keys
               | _ => True
               end) events.

(** The move of the last click of a session. *)
Definition last_move (events : list (Z * Event)) : option Move :=
  last (omap (λ e, match e.2 with
                   | MoveClick move => Some move
                   | _ => None
                   end) events).

(** Every click of the session is at least 2000 units before [now]. *)
Definition clicks_expired (events : list (Z * Event)) (now : Z) : Prop :=
  Forall (λ e, match e.2 with
               | MoveClick _ => e.1 + 2000 ≤ now
               | _ => True
               end) events.
End Effects.

(** ** Sample networks and states *)
Module Samples.
Import DataClient ViewRoot.

(** Every request is rejected. *)
Definition offline : Network :=
  {| get_list := λ _ _, None; get_pokemon := λ _, None;
     get_move := λ _, None; get_type := λ _, None |}.

(** The list endpoint answers with no item, whatever the offset. *)
Definition exhausted : Network :=
  {| get_list := λ _ _, Some []; get_pokemon := λ _, None;
     get_move := λ _, None; get_type := λ _, None |}.

(** One item is listed and its details load, but its second move does
    not. *)
Definition flaky : Network :=
  {| get_list := λ _ _, Some [ {| su_name := "bulbasaur"; su_url := "p/1" |} ];
     get_pokemon := λ url,
       if decide (url = "p/1") then
         Some {| d_id := 1; d_name := "bulbasaur"; d_types := [];
                 d_moves := [ {| ms_name := "razor-wind"; ms_url := "m/13" |};
                              {| ms_name := "swords-dance"; ms_url := "m/14" |} ];
                 d_front_default := "1.png"; d_front_shiny := "s1.png" |}
       else None;
     get_move := λ url,
       if decide (url = "m/13") then
         Some {| md_name := "razor-wind"; md_type_name := "normal" |}
       else None;
     get_type := λ _, None |}.

(** Only the type endpoint is of interest: it serves [water]. *)
Definition types_only : Network :=
  {| get_list := λ _ _, None; get_pokemon := λ _, None;
     get_move := λ _, None;
     get_type := λ url,
       if decide (url = "t/11") then
         Some {| td_name := "water";
                 double_damage_from := ["grass"; "electric"];
                 double_damage_to := ["fire"; "ground"; "rock"];
                 half_damage_from := ["fire"; "water"; "ice"; "steel"];
                 half_damage_to := ["water"; "grass"; "dragon"];
                 no_damage_from := [];
                 no_damage_to := [] |}
       else None |}.

(** The first page is on screen and the cursor is about to move on. *)
Definition two_cards : State :=
  {| pokemonData := [Store.bare 1; Store.bare 2]; loading := false;
     error := None; selectedType := None; hasMore := true; page := 2 |}.
End Samples.

(** ** PokemonCard: the number label and the element id of a card *)
Module CardMarkup.
(** [n.toString()] for an integer: decimal digits, with a minus sign.
    This is what JavaScript prints for the integers that a number holds
    exactly, those below 2^53 in absolute value; the statements below use
    it for ids from 0 to 999, and otherwise only that different ids print
    differently, which holds of JavaScript numbers throughout. *)
Definition toString (n : Z) : string := pretty n.

(** The first [k] characters of [padString] repeated, [cur] being what is
    left of the copy under way. *)
Fixpoint pad_fill (k : nat) (cur padString : string) : string :=
  match k with
  | O => ""
  | S k' =>
      match cur with
      | String a rest => String a (pad_fill k' rest padString)
      | EmptyString =>
          match padString with
          | String a rest => String a (pad_fill k' rest padString)
          | EmptyString => ""
          end
      end
  end.

(** [s.padStart(targetLength, padString)]. *)
Definition padStart (targetLength : nat) (padString s : string) : string :=
  pad_fill (targetLength - String.length s) padString padString +:+ s.

(** The text of the span in the card's heading. *)
Definition number_label (pokemon : Pokemon) : string :=
  "#" +:+ padStart 3 "0" (toString (id pokemon)).

(** The [id] attribute of the card's element. *)
Definition card_element_id (pokemon : Pokemon) : string :=
  "pokemon-card-" +:+ toString (id pokemon).

(** The elements of the grid that carry an [id] attribute, in document
    order: one per card. *)
Definition card_elements (cards : list Pokemon) : list (string * Pokemon) :=
  (λ pokemon, (card_element_id pokemon, pokemon)) <$> cards.

(** [document.getElementById]: the first element with this id. *)
Fixpoint getElementById (elementId : string) (document : list (string * Pokemon))
    : option Pokemon :=
  match document with
  | [] => None
  | (i, element) :: rest =>
      if decide (i = elementId) then Some element else getElementById elementId rest
  end.
End CardMarkup.

(** ** PokemonImage: the sprite of a card, its click and its timers *)
Module PokemonImage.
(** The three [useState] cells of one mounted instance, and the due
    times of the callbacks [() => setIsVFXActive(false)] that have not run
    yet.  When an instance is mounted and when it is taken down is for
    [CardView] to say. *)
Record State := {
  isVFXActive : bool;
  isShiny : bool;
  isHovered : bool;
  timers : list Z;
}.

Definition initial : State :=
  {| isVFXActive := false; isShiny := false; isHovered := false; timers := [] |}.

(** [handleClick]. *)
Definition handleClick (now : Z) (s : State) : State :=
  {| isVFXActive := true;
     isShiny := negb (isShiny s);
     isHovered := isHovered s;
     timers := timers s ++ [now + 1000] |}.

Definition onMouseEnter (s : State) : State :=
  {| isVFXActive := isVFXActive s; isShiny := isShiny s; isHovered := true;
     timers := timers s |}.

Definition onMouseLeave (s : State) : State :=
  {| isVFXActive := isVFXActive s; isShiny := isShiny s; isHovered := false;
     timers := timers s |}.

(** The event loop at time [now]. *)
Definition run_timers (now : Z) (s : State) : State :=
  {| isVFXActive :=
       match filter (λ d, d ≤ now) (timers s) with
       | [] => isVFXActive s
       | _ :: _ => false
       end;
     isShiny := isShiny s;
     isHovered := isHovered s;
     timers := filter (λ d, now < d) (timers s) |}.

(** A click on the image at time [now]. *)
Definition click (now : Z) (s : State) : State :=
  handleClick now (run_timers now s).

(** What the component renders: the shader, if any, and the [src]. *)
Definition src (pokemon : Pokemon) (s : State) : string :=
  if isShiny s then shinySprite pokemon else sprite pokemon.

Definition shader (s : State) : option Effects.ShaderPreset :=
  if isVFXActive s then Some Effects.glitch else None.
End PokemonImage.

(** ** The image slot of a card: [VFXImg] and [PokemonImage] take turns *)
Module CardView.
(** The state of a card that is on screen.
    [activeEffect ? <VFXImg .../> : <PokemonImage .../>]: while an effect
    is active there is no [PokemonImage], and the one mounted when the
    effect ends starts from its initial state. *)
Record State := {
  card : Effects.Card;
  image : option PokemonImage.State;
}.

Definition initial : State :=
  {| card := Effects.idle; image := Some PokemonImage.initial |}.

(** The [PokemonImage] after a render with the card state [c]. *)
Definition reconcile (c : Effects.Card) (image : option PokemonImage.State)
    : option PokemonImage.State :=
  match Effects.activeEffect c with
  | Some _ => None
  | None => Some (default PokemonImage.initial image)
  end.

(** The event loop at time [now]: the callbacks of the card, and those of
    the mounted image. *)
Definition run_timers (now : Z) (st : State) : State :=
  let c := Effects.run_timers now (card st) in
  {| card := c;
     image := reconcile c (PokemonImage.run_timers now <$> image st) |}.

Definition move_click (now : Z) (move : Move) (st : State) : State :=
  let st := run_timers now st in
  let c := Effects.handleMoveClick now move (card st) in
  {| card := c; image := reconcile c (image st) |}.

(** A click on the sprite reaches [PokemonImage] when it is mounted. *)
Definition image_click (now : Z) (st : State) : State :=
  let st := run_timers now st in
  {| card := card st; image := PokemonImage.handleClick now <$> image st |}.

(** The shader and the [src] on show. *)
Definition shown (pokemon : Pokemon) (st : State)
    : option Effects.ShaderPreset * string :=
  match Effects.activeEffect (card st), image st with
  | Some effect, _ => (Some effect, sprite pokemon)
  | None, Some s => (PokemonImage.shader s, PokemonImage.src pokemon s)
  | None, None => (None, sprite pokemon)
  end.

(** What happens to the image slot of a card: a click on a move, a click
    on the sprite, and the card leaving and entering the screen with the
    grid (see [Effects.Event]). *)
Inductive Event :=
  | MoveClick (move : Move)
  | ImageClick
  | Unmount
  | Mount.

Definition handle (now : Z) (event : Event) (o : option State) : option State :=
  match event, o with
  | MoveClick move, Some st => Some (move_click now move st)
  | ImageClick, Some st => Some (image_click now st)
  | MoveClick _, None => None
  | ImageClick, None => None
  | Unmount, _ => None
  | Mount, None => Some initial
  | Mount, Some st => Some st
  end.

(** The life of the slot from the first mount of its card. *)
Definition session (events : list (Z * Event)) : option State :=
  foldl (λ o e, handle e.1 e.2 o) (Some initial) events.

(** The shader and the [src] on show at time [now], when [events] is all
    that has happened to the card until then. *)
Definition on_show (pokemon : Pokemon) (events : list (Z * Event)) (now : Z)
    : option (option Effects.ShaderPreset * string) :=
  (λ st, shown pokemon (run_timers now st)) <$> session events.

Definition modelled (events : list (Z * Event)) : Prop :=
  Forall (λ e, match e.2 with
               | MoveClick move => mv_type move ∉ Effects.Object_prototype_keys
               | _ => True
               end) events.
End CardView.

(** ** DarkModeToggle *)
Module DarkMode.
(** What the component touches of the browser: [localStorage], and the
    class list of the root element (a list of tokens without repetition). *)
Record Browser := {
  localStorage : gmap string string;
  classList : list string;
}.

Definition classList_add (token : string) (l : list string) : list string :=
  if decide (token ∈ l) then l else l ++ [token].

Definition classList_remove (token : string) (l : list string) : list string :=
  filter (λ t, t ≠ token) l.

(** [newDarkMode.toString()]. *)
Definition bool_toString (b : bool) : string :=
  if b then "true" else "false".

(** The [if]/[else] on the class list, shared by the effect and the
    handler. *)
Definition apply_class (dark : bool) (b : Browser) : Browser :=
  {| localStorage := localStorage b;
     classList := if dark then classList_add "dark" (classList b)
                  else classList_remove "dark" (classList b) |}.

(** The state of the component with the browser it acts on. *)
Definition State : Type := bool * Browser.

(** The effect that runs after the first render. *)
Definition mount (b : Browser) : State :=
  let isDarkMode := bool_decide (localStorage b !! "darkMode" = Some "true") in
  (isDarkMode, apply_class isDarkMode b).

Definition toggleDarkMode (st : State) : State :=
  let newDarkMode := negb st.1 in
  (newDarkMode,
   apply_class newDarkMode
     {| localStorage := <["darkMode" := bool_toString newDarkMode]> (localStorage st.2);
        classList := classList st.2 |}).

(** The state, the class list and the stored flag agree. *)
Definition in_sync (st : State) : Prop :=
  (localStorage st.2 !! "darkMode" = Some "true" ↔ st.1 = true) ∧
  ("dark" ∈ classList st.2 ↔ st.1 = true).
End DarkMode.

(** ** A network that serves one page *)
Module Served.
Import DataClient.

Definition bulbasaur : Details :=
  {| d_id := 1; d_name := "bulbasaur";
     d_types := [ {| tr_name := "grass"; tr_url := "t/12" |};
                  {| tr_name := "poison"; tr_url := "t/4" |} ];
     d_moves := [ {| ms_name := "razor-wind"; ms_url := "m/13" |};
                  {| ms_name := "swords-dance"; ms_url := "m/14" |};
                  {| ms_name := "cut"; ms_url := "m/15" |};
                  {| ms_name := "bind"; ms_url := "m/20" |} ];
     d_front_default := "1.png"; d_front_shiny := "s1.png" |}.

Definition charmander : Details :=
  {| d_id := 4; d_name := "charmander";
     d_types := [ {| tr_name := "fire"; tr_url := "t/10" |} ];
     d_moves := [ {| ms_name := "mega-punch"; ms_url := "m/5" |} ];
     d_front_default := "4.png"; d_front_shiny := "s4.png" |}.

Definition listing : list Summary :=
  [ {| su_name := "charmander"; su_url := "p/4" |};
    {| su_name := "bulbasaur"; su_url := "p/1" |} ].

Definition pokemon_at (url : string) : option Details :=
  if decide (url = "p/1") then Some bulbasaur
  else if decide (url = "p/4") then Some charmander
  else None.

(** The first window lists two items, every other window is empty; the
    fourth move of the first item cannot be fetched. *)
Definition network : Network :=
  {| get_list := λ _ offset, if decide (offset = 0) then Some listing else Some [];
     get_pokemon := pokemon_at;
     get_move := λ url,
       if decide (url = "m/20") then None
       else Some {| md_name := "a move"; md_type_name := "normal" |};
     get_type := λ _, None |}.

(** The same first window, and nothing else in common. *)
Definition other_network : Network :=
  {| get_list := λ _ offset, if decide (offset = 0) then Some listing else None;
     get_pokemon := pokemon_at;
     get_move := λ url,
       Some {| md_name := "a move"; md_type_name := "normal" |};
     get_type := λ _, Some {| td_name := "water";
                              double_damage_from := []; double_damage_to := [];
                              half_damage_from := []; half_damage_to := [];
                              no_damage_from := []; no_damage_to := [] |} |}.
End Served.

(** * Properties *)

(** ** The [Map]: what [get] returns after [set], and which keys exist *)
Section js_map_facts.
Context {V : Type}.
Implicit Types (k : Z) (v : V) (m : JsMap.t V).

Lemma get_set k k' v m :
  JsMap.get k (JsMap.set k' v m) =
  if decide (k = k') then Some v else JsMap.get k m.
Proof.
  induction m as [|[k0 v0] m IH]; simpl.
  - destruct (decide (k = k')); done.
  - destruct (decide (k' = k0)) as [->|Hne]; simpl.
    + destruct (decide (k = k0)); done.
    + rewrite IH. destruct (decide (k = k0)) as [->|]; [|done].
      destruct (decide (k0 = k')); [congruence|done].
Qed.

Lemma elem_of_keys_set k k' v m :
  k ∈ JsMap.keys (JsMap.set k' v m) ↔ k = k' ∨ k ∈ JsMap.keys m.
Proof.
  unfold JsMap.keys. induction m as [|[k0 v0] m IH]; simpl.
  - rewrite list_elem_of_singleton, elem_of_nil. tauto.
  - destruct (decide (k' = k0)) as [->|Hne]; simpl.
    + rewrite !elem_of_cons. tauto.
    + rewrite !elem_of_cons, IH. tauto.
Qed.

Lemma NoDup_keys_set k v m :
  NoDup (JsMap.keys m) → NoDup (JsMap.keys (JsMap.set k v m)).
Proof.
  unfold JsMap.keys. induction m as [|[k0 v0] m IH]; simpl.
  - intros _. apply NoDup_singleton.
  - rewrite NoDup_cons. intros [Hk0 Hm].
    destruct (decide (k = k0)) as [->|Hne]; simpl.
    + by apply NoDup_cons.
    + apply NoDup_cons. split; [|by apply IH].
      intros Hin. apply (elem_of_keys_set k0 k v m) in Hin.
      destruct Hin; [congruence|done].
Qed.

Lemma get_None_keys k m : JsMap.get k m = None ↔ k ∉ JsMap.keys m.
Proof.
  unfold JsMap.keys. induction m as [|[k0 v0] m IH]; simpl.
  - rewrite elem_of_nil. tauto.
  - rewrite not_elem_of_cons. destruct (decide (k = k0)); [|tauto].
    split; [done|tauto].
Qed.

(** With distinct keys, the entries of the map are the graph of [get]. *)
Lemma elem_of_get k v m :
  NoDup (JsMap.keys m) → (k, v) ∈ m ↔ JsMap.get k m = Some v.
Proof.
  unfold JsMap.keys. induction m as [|[k0 v0] m IH]; simpl.
  - intros _. rewrite elem_of_nil. split; [tauto|done].
  - rewrite NoDup_cons. intros [Hk0 Hm]. rewrite elem_of_cons.
    destruct (decide (k = k0)) as [->|Hne].
    + split.
      * intros [[= ->]|Hin]; [done|].
        destruct Hk0. apply list_elem_of_fmap. by exists (k0, v).
      * intros [= ->]. by left.
    + rewrite <-(IH Hm). split; [|tauto].
      intros [[= -> ->]|Hin]; done.
Qed.
End js_map_facts.

(** ** [sort]: a permutation, ordered by the key the comparator subtracts *)
Section sort_facts.
Context {A : Type} (key : A → Z).

Let by_key (a b : A) : Z := key a - key b.

Lemma sort_insert_Permutation x (l : list A) :
  JsArray.sort_insert by_key x l ≡ₚ x :: l.
Proof.
  induction l as [|y l IH]; simpl; [done|].
  destruct (decide (by_key x y ≤ 0)); [done|].
  rewrite IH. apply Permutation_swap.
Qed.

Lemma sort_Permutation (l : list A) : JsArray.sort by_key l ≡ₚ l.
Proof.
  induction l as [|x l IH]; simpl; [done|].
  by rewrite sort_insert_Permutation, IH.
Qed.

Lemma sort_insert_sorted x (l : list A) :
  StronglySorted (λ a b, key a ≤ key b) l →
  StronglySorted (λ a b, key a ≤ key b) (JsArray.sort_insert by_key x l).
Proof.
  induction 1 as [|y l Hl IH Hy]; simpl.
  - repeat constructor.
  - unfold by_key at 1. destruct (decide (key x - key y ≤ 0)) as [Hle|Hgt].
    + constructor; [by constructor|].
      constructor; [lia|].
      eapply Forall_impl; [exact Hy|]. simpl. intros; lia.
    + constructor; [done|].
      rewrite (sort_insert_Permutation x l). constructor; [lia|done].
Qed.

Lemma sort_sorted (l : list A) :
  StronglySorted (λ a b, key a ≤ key b) (JsArray.sort by_key l).
Proof.
  induction l as [|x l IH]; simpl; [constructor|].
  by apply sort_insert_sorted.
Qed.

(** Keys that are in order and pairwise distinct are in strict order. *)
Lemma sorted_NoDup_strict (l : list A) :
  StronglySorted (λ a b, key a ≤ key b) l →
  NoDup (key <$> l) →
  StronglySorted (λ a b, key a < key b) l.
Proof.
  induction 1 as [|x l Hl IH Hx]; simpl; [constructor|].
  rewrite NoDup_cons. intros [Hnin Hnd].
  constructor; [by apply IH|].
  rewrite Forall_forall in Hx |- *. intros y Hy.
  assert (key x ≠ key y); [|specialize (Hx y Hy); simpl in Hx; lia].
  intros Heq. apply Hnin. rewrite Heq. by apply list_elem_of_fmap_2.
Qed.
End sort_facts.

(** ** [merge]: its entries, id by id *)
Section merge_facts.
Implicit Types (i : Z) (x e : Pokemon) (l existing incoming : list Pokemon).

Lemma last_by_id_Some i l x :
  Store.last_by_id i l = Some x → id x = i ∧ x ∈ l.
Proof.
  unfold Store.last_by_id, Store.with_id. intros Hlast.
  apply last_Some_elem_of, list_elem_of_filter in Hlast. tauto.
Qed.

Lemma last_by_id_app i l1 l2 :
  Store.last_by_id i (l1 ++ l2) =
  match Store.last_by_id i l2 with
  | Some e => Some e
  | None => Store.last_by_id i l1
  end.
Proof.
  unfold Store.last_by_id, Store.with_id. by rewrite filter_app, last_app.
Qed.

Lemma last_by_id_singleton i x :
  Store.last_by_id i [x] = if decide (id x = i) then Some x else None.
Proof.
  unfold Store.last_by_id, Store.with_id. rewrite filter_cons, filter_nil.
  by destruct (decide (id x = i)).
Qed.

(** The map built from a sequence: under each id, the last entry with it. *)
Lemma get_from_entries i l :
  JsMap.get i (JsMap.from_entries ((λ item, (id item, item)) <$> l)) =
  Store.last_by_id i l.
Proof.
  unfold JsMap.from_entries. rewrite foldl_fmap. simpl.
  induction l as [|x l IH] using rev_ind; [done|].
  rewrite foldl_snoc, get_set, IH, last_by_id_app, last_by_id_singleton.
  destruct (decide (i = id x)) as [->|Hne].
  - by rewrite decide_True.
  - by rewrite decide_False.
Qed.

Lemma NoDup_keys_from_entries l :
  NoDup (JsMap.keys (JsMap.from_entries ((λ item, (id item, item)) <$> l))).
Proof.
  unfold JsMap.from_entries. rewrite foldl_fmap. simpl.
  induction l as [|x l IH] using rev_ind; [apply NoDup_nil_2|].
  rewrite foldl_snoc. by apply NoDup_keys_set.
Qed.

(** Every value of the map sits under its own id. *)
Lemma from_entries_keyed l k x :
  (k, x) ∈ JsMap.from_entries ((λ item, (id item, item)) <$> l) →
  id x = k ∧ Store.last_by_id k l = Some x.
Proof.
  intros Hin. apply elem_of_get in Hin; [|apply NoDup_keys_from_entries].
  rewrite get_from_entries in Hin. split; [|done].
  by apply last_by_id_Some in Hin as [? _].
Qed.

Lemma ids_of_values l :
  id <$> JsMap.values (JsMap.from_entries ((λ item, (id item, item)) <$> l)) =
  JsMap.keys (JsMap.from_entries ((λ item, (id item, item)) <$> l)).
Proof.
  unfold JsMap.values, JsMap.keys.
  pose proof (from_entries_keyed l) as Hkeyed.
  induction (JsMap.from_entries ((λ item, (id item, item)) <$> l))
    as [|[k x] m IH]; simpl; [done|].
  f_equal.
  - apply Hkeyed. by left.
  - apply IH. intros k' x' Hin. apply Hkeyed. by right.
Qed.

Lemma elem_of_values l x :
  x ∈ JsMap.values (JsMap.from_entries ((λ item, (id item, item)) <$> l)) ↔
  Store.last_by_id (id x) l = Some x.
Proof.
  unfold JsMap.values. rewrite list_elem_of_fmap. split.
  - intros [[k x'] [-> Hin]]. simpl.
    apply from_entries_keyed in Hin as [<- Hlast]. done.
  - intros Hlast. exists (id x, x). split; [done|].
    apply elem_of_get; [apply NoDup_keys_from_entries|].
    by rewrite get_from_entries.
Qed.

(** An entity is in the merged sequence exactly when it is the last one
    with its id in [existing ++ incoming]. *)
Lemma elem_of_merge existing incoming x :
  x ∈ Store.merge existing incoming ↔
  Store.last_by_id (id x) (existing ++ incoming) = Some x.
Proof.
  unfold Store.merge. rewrite (sort_Permutation id). apply elem_of_values.
Qed.

Lemma merge_NoDup_ids existing incoming :
  NoDup (id <$> Store.merge existing incoming).
Proof.
  unfold Store.merge. rewrite (sort_Permutation id), ids_of_values.
  apply NoDup_keys_from_entries.
Qed.

Lemma merge_strictly_sorted existing incoming :
  StronglySorted (λ a b, id a < id b) (Store.merge existing incoming).
Proof.
  apply sorted_NoDup_strict; [|apply merge_NoDup_ids].
  unfold Store.merge. apply (sort_sorted id).
Qed.

(** In a sequence with distinct ids, the entries under an id are the one
    entity, if any, that is in the sequence with this id. *)
Lemma with_id_unique i l (o : option Pokemon) :
  NoDup (id <$> l) →
  (∀ x, x ∈ l ∧ id x = i ↔ o = Some x) →
  Store.with_id i l = option_list o.
Proof.
  unfold Store.with_id. revert o. induction l as [|a l IH]; intros o; simpl.
  - intros _ Ho. destruct o as [x|]; [|done].
    destruct (Ho x) as [_ Hx]. destruct (Hx eq_refl) as [Hin _].
    by apply elem_of_nil in Hin.
  - rewrite NoDup_cons. intros [Hnin Hnd] Ho. rewrite filter_cons.
    destruct (decide (id a = i)) as [Ha|Ha].
    + assert (o = Some a) as ->.
      { apply Ho. split; [by left|done]. }
      simpl. f_equal. rewrite (IH None Hnd); [done|].
      intros x. split; [|done]. intros [Hin Hx].
      destruct Hnin. rewrite Ha, <-Hx. by apply list_elem_of_fmap_2.
    + apply IH; [done|]. intros x. rewrite <-Ho, elem_of_cons.
      split; [tauto|]. intros [[->|Hin] Hx]; [done|tauto].
Qed.

Lemma with_id_merge i existing incoming :
  Store.with_id i (Store.merge existing incoming) =
  option_list (Store.last_by_id i (existing ++ incoming)).
Proof.
  apply with_id_unique; [apply merge_NoDup_ids|].
  intros x. rewrite elem_of_merge. split.
  - intros [Hlast <-]. done.
  - intros Hlast. destruct (last_by_id_Some _ _ _ Hlast) as [<- _]. done.
Qed.
End merge_facts.

Lemma last_by_id_merge (i : Z) (existing incoming : list Pokemon) :
  Store.last_by_id i (Store.merge existing incoming) =
  Store.last_by_id i (existing ++ incoming).
Proof.
  unfold Store.last_by_id at 1. rewrite with_id_merge.
  by destruct (Store.last_by_id i (existing ++ incoming)).
Qed.

(** C1. Whatever the existing and the incoming sequences, the merged
    sequence has no two entries with the same id; and under every id it
    holds the incoming entity with this id (the last one, should there be
    several), or else, when no incoming entity has this id, the existing
    one: on a collision the incoming entity replaces the existing one. *)
Theorem merge_no_duplicate_ids (existing incoming : list Pokemon) :
  NoDup (id <$> Store.merge existing incoming) ∧
  ∀ i : Z,
    Store.with_id i (Store.merge existing incoming) =
    option_list
      match Store.last_by_id i incoming with
      | Some e => Some e
      | None => Store.last_by_id i existing
      end.
Proof.
  split; [apply merge_NoDup_ids|].
  intros i. by rewrite with_id_merge, last_by_id_app.
Qed.

(** C3. The merged sequence is in ascending order of id, in whatever order
    the two inputs are; a page with the ids 4, 1, 25, 7 merged into the
    empty store comes out as 1, 4, 7, 25. *)
Theorem merge_sorted_by_id (existing incoming : list Pokemon) :
  Sorted Z.le (id <$> Store.merge existing incoming) ∧
  id <$> Store.merge [] (Store.bare <$> [4; 1; 25; 7]) = [1; 4; 7; 25].
Proof.
  split; [|reflexivity].
  apply StronglySorted_Sorted.
  apply (StronglySorted_fmap id (λ a b, id a ≤ id b) Z.le); [done|].
  unfold Store.merge. apply (sort_sorted id).
Qed.

(** C4. Merging the same incoming sequence a second time changes
    nothing. *)
Theorem merge_idempotent (existing incoming : list Pokemon) :
  Store.merge (Store.merge existing incoming) incoming =
  Store.merge existing incoming.
Proof.
  apply (StronglySorted_unique_strong (λ a b, id a < id b));
    [intros; lia|apply merge_strictly_sorted..|].
  apply NoDup_Permutation;
    [eapply NoDup_fmap_1, merge_NoDup_ids..|].
  intros x. rewrite !elem_of_merge, (last_by_id_app _ (Store.merge _ _)).
  rewrite last_by_id_merge, !last_by_id_app.
  by destruct (Store.last_by_id (id x) incoming).
Qed.

(** C10. When the incoming sequence itself has an id twice or more, the
    merged sequence has one entry for this id, and it is the last of the
    incoming entities with this id. *)
Theorem merge_intra_batch_duplicates
    (existing l1 l2 l3 : list Pokemon) (e1 e2 : Pokemon) :
  id e1 = id e2 →
  Store.with_id (id e2) l3 = [] →
  Store.with_id (id e2)
    (Store.merge existing (l1 ++ e1 :: l2 ++ e2 :: l3)) = [e2].
Proof.
  intros _ Hl3. rewrite with_id_merge.
  replace (l1 ++ e1 :: l2 ++ e2 :: l3)
    with ((l1 ++ e1 :: l2) ++ [e2] ++ l3) by by rewrite <-app_assoc.
  rewrite !last_by_id_app, last_by_id_singleton, decide_True by done.
  unfold Store.last_by_id at 1. by rewrite Hl3.
Qed.

Lemma merge_intra_batch_duplicates_witness :
  Store.with_id 2
    (Store.merge [Store.named 2 "old"]
       ([] ++ Store.named 2 "first" :: [Store.bare 5]
           ++ Store.named 2 "second" :: [Store.bare 7]))
  = [Store.named 2 "second"].
Proof.
  apply (merge_intra_batch_duplicates [Store.named 2 "old"] [] [Store.bare 5]
           [Store.bare 7] (Store.named 2 "first") (Store.named 2 "second"));
    reflexivity.
Defined.

(** ** The page fetch and the view state *)
Section fetch_facts.
Import DataClient ViewRoot.
Context (net : Network).

Lemma resolve_pokemon_details_fail (item : Summary) :
  get_pokemon net (su_url item) = None → resolve_pokemon net item = None.
Proof. unfold resolve_pokemon. by intros ->. Qed.

Lemma resolve_pokemon_move_fails (item : Summary) details (move : MoveSlot) :
  get_pokemon net (su_url item) = Some details →
  move ∈ take 3 (d_moves details) →
  get_move net (ms_url move) = None →
  resolve_pokemon net item = None.
Proof.
  unfold resolve_pokemon. intros -> Hin Hmove. simpl.
  rewrite (mapM_None_2 (resolve_move net)); [done|].
  apply Exists_exists. exists move. split; [done|].
  unfold resolve_move. by rewrite Hmove.
Qed.

Lemma fetchPage_item_fails (page : Z) results (item : Summary) :
  get_list net 20 ((page - 1) * 20) = Some results →
  item ∈ results →
  resolve_pokemon net item = None →
  fetchPage net page = PageFailed.
Proof.
  unfold fetchPage. intros -> Hin Hitem. simpl.
  destruct (decide (length results = 0%nat)) as [Hlen|_].
  - apply nil_length_inv in Hlen. subst. by apply elem_of_nil in Hin.
  - rewrite (mapM_None_2 (resolve_pokemon net)); [done|].
    apply Exists_exists. by exists item.
Qed.

(** One failing request fails the page. *)
Lemma fetchPage_fails (page : Z) :
  sub_request_fails net page → fetchPage net page = PageFailed.
Proof.
  destruct 1 as [Hlist|results item Hlist Hin Hdet
                |results item details move Hlist Hin Hdet Hmv Hmove].
  - unfold fetchPage. simpl. by rewrite Hlist.
  - eauto using fetchPage_item_fails, resolve_pokemon_details_fail.
  - eauto using fetchPage_item_fails, resolve_pokemon_move_fails.
Qed.

Lemma fetchPokemon_failed (st : State) :
  fetchPage net (page st) = PageFailed →
  fetchPokemon net st =
  setLoading false (setError (Some failure_message) (setLoading true st)).
Proof. unfold fetchPokemon. simpl. by intros ->. Qed.

Lemma fetchPokemon_empty (st : State) :
  get_list net 20 ((page st - 1) * 20) = Some [] →
  fetchPokemon net st = setHasMore false (setLoading true st).
Proof.
  intros Hlist. unfold fetchPokemon, fetchPage. simpl. by rewrite Hlist.
Qed.

(** With [hasMore] off the observer's callback does nothing, and with
    [loading] on no observer is attached. *)
Lemma observer_callback_no_more (st : State) (isIntersecting : bool) :
  hasMore st = false → observer_callback isIntersecting st = st.
Proof.
  unfold observer_callback. intros ->. by rewrite andb_false_r.
Qed.

Lemma intersect_no_more (st : State) (isIntersecting : bool) :
  hasMore st = false → intersect net st isIntersecting = st.
Proof.
  intros Hmore. unfold intersect.
  rewrite (observer_callback_no_more _ _ Hmore).
  destruct (observing st); [|done]. by rewrite decide_True.
Qed.
End fetch_facts.

Section view_root_claims.
Import DataClient ViewRoot.

(** C2. When a request of a page fetch fails (the summary list, the
    details of a listed entity, or one of its first three moves), the page
    fetch as a whole fails: the store is what it was before the fetch, no
    entity of the page has been admitted, the error state holds the message
    for the user, and the view shows this message. *)
Theorem failed_page_fetch_leaves_store (net : Network) (st : State) :
  sub_request_fails net (page st) →
  fetchPage net (page st) = PageFailed ∧
  pokemonData (fetchPokemon net st) = pokemonData st ∧
  error (fetchPokemon net st) = Some failure_message ∧
  Component (fetchPokemon net st) = ErrorScreen failure_message.
Proof.
  intros Hfail. apply fetchPage_fails in Hfail.
  rewrite (fetchPokemon_failed net st Hfail). done.
Qed.

Lemma failed_page_fetch_leaves_store_witness :
  fetchPage Samples.flaky 2 = PageFailed ∧
  pokemonData (fetchPokemon Samples.flaky Samples.two_cards)
    = [Store.bare 1; Store.bare 2] ∧
  error (fetchPokemon Samples.flaky Samples.two_cards) = Some failure_message ∧
  Component (fetchPokemon Samples.flaky Samples.two_cards)
    = ErrorScreen failure_message.
Proof.
  apply (failed_page_fetch_leaves_store Samples.flaky Samples.two_cards).
  apply (move_fails Samples.flaky 2
           [ {| su_name := "bulbasaur"; su_url := "p/1" |} ]
           {| su_name := "bulbasaur"; su_url := "p/1" |}
           {| d_id := 1; d_name := "bulbasaur"; d_types := [];
              d_moves := [ {| ms_name := "razor-wind"; ms_url := "m/13" |};
                           {| ms_name := "swords-dance"; ms_url := "m/14" |} ];
              d_front_default := "1.png"; d_front_shiny := "s1.png" |}
           {| ms_name := "swords-dance"; ms_url := "m/14" |});
    [reflexivity|apply list_elem_of_here|reflexivity
    |apply list_elem_of_further, list_elem_of_here|reflexivity].
Defined.

(** C8. When the summary list of a page comes back empty, "has more"
    becomes false, the store and the error state are what they were, and
    from then on no report of the observer triggers a page fetch: the
    callback leaves the cursor alone, and the state stays put under any
    sequence of reports. *)
Theorem empty_page_stops_pagination (net : Network) (st : State) :
  get_list net 20 ((page st - 1) * 20) = Some [] →
  hasMore (fetchPokemon net st) = false ∧
  pokemonData (fetchPokemon net st) = pokemonData st ∧
  error (fetchPokemon net st) = error st ∧
  (∀ isIntersecting,
     observer_callback isIntersecting (fetchPokemon net st) = fetchPokemon net st ∧
     fetch_triggered isIntersecting (fetchPokemon net st) = false) ∧
  (∀ reports : list bool,
     foldl (intersect net) (fetchPokemon net st) reports = fetchPokemon net st).
Proof.
  intros Hlist. rewrite (fetchPokemon_empty net st Hlist).
  split_and!; try done.
  - intros b. by rewrite observer_callback_no_more.
  - intros reports. induction reports as [|b reports IH]; simpl; [done|].
    by rewrite intersect_no_more.
Qed.

Lemma empty_page_stops_pagination_witness :
  hasMore (fetchPokemon Samples.exhausted Samples.two_cards) = false ∧
  pokemonData (fetchPokemon Samples.exhausted Samples.two_cards)
    = [Store.bare 1; Store.bare 2] ∧
  error (fetchPokemon Samples.exhausted Samples.two_cards) = None ∧
  (∀ isIntersecting,
     observer_callback isIntersecting
       (fetchPokemon Samples.exhausted Samples.two_cards)
     = fetchPokemon Samples.exhausted Samples.two_cards ∧
     fetch_triggered isIntersecting
       (fetchPokemon Samples.exhausted Samples.two_cards) = false) ∧
  (∀ reports : list bool,
     foldl (intersect Samples.exhausted)
       (fetchPokemon Samples.exhausted Samples.two_cards) reports
     = fetchPokemon Samples.exhausted Samples.two_cards).
Proof.
  apply (empty_page_stops_pagination Samples.exhausted Samples.two_cards).
  reflexivity.
Defined.

(** C9, at the inputs where the code departs from it.  With two cards in
    the store, the view of an outstanding fetch is the full-screen
    indicator and shows no card; and after a fetch that found an empty
    summary list, [loading] is still on, so the indicator stays.  After a
    fetch that failed or that loaded a page, the indicator is gone. *)
Theorem loading_screen_hides_cards_and_sticks :
  Component (fetch_outstanding Samples.two_cards) = LoadingScreen ∧
  cards_shown (Component (fetch_outstanding Samples.two_cards)) = [] ∧
  loading (fetchPokemon Samples.exhausted Samples.two_cards) = true ∧
  loading_indicator
    (Component (fetchPokemon Samples.exhausted Samples.two_cards)) = true ∧
  loading_indicator
    (Component (fetchPokemon Samples.offline Samples.two_cards)) = false.
Proof. repeat split. Qed.
End view_root_claims.

(** The loading flag in the exits that clear it, and the store through a
    session. *)
Section loading_facts.
Import DataClient ViewRoot.

Lemma outstanding_fetch_shows_indicator (st : State) :
  Component (fetch_outstanding st) = LoadingScreen.
Proof. done. Qed.

Lemma settled_fetch_clears_loading (net : Network) (st : State) :
  fetchPage net (page st) ≠ NoMorePages →
  loading (fetchPokemon net st) = false.
Proof.
  unfold fetchPokemon. simpl. by destruct (fetchPage net (page st)).
Qed.

Lemma loaded_page_is_merged (net : Network) (st : State) pokemonDetails :
  fetchPage net (page st) = PageLoaded pokemonDetails →
  pokemonData (fetchPokemon net st) = Store.merge (pokemonData st) pokemonDetails.
Proof. unfold fetchPokemon. simpl. by intros ->. Qed.

(** Through every session the store keeps its ids distinct and in
    ascending order. *)
Lemma fetchPokemon_store_invariant (net : Network) (st : State) :
  StronglySorted (λ a b, id a < id b) (pokemonData st) →
  StronglySorted (λ a b, id a < id b) (pokemonData (fetchPokemon net st)).
Proof.
  intros Hst. unfold fetchPokemon. simpl.
  destruct (fetchPage net (page st)); simpl; [done| |done].
  apply merge_strictly_sorted.
Qed.

Lemma step_store_invariant (st st' : State) :
  step st st' →
  StronglySorted (λ a b, id a < id b) (pokemonData st) →
  StronglySorted (λ a b, id a < id b) (pokemonData st').
Proof.
  destruct 1 as [net st|net st b|net url st|st]; intros Hst.
  - by apply fetchPokemon_store_invariant.
  - unfold intersect. destruct (observing st); [|done].
    destruct (decide _); [|apply fetchPokemon_store_invariant];
      unfold observer_callback; by destruct (_ && _).
  - unfold handleTypeClick. by destruct (fetchTypeDetails net url).
  - done.
Qed.

Lemma steps_store_invariant (st st' : State) :
  rtc step st st' →
  StronglySorted (λ a b, id a < id b) (pokemonData st) →
  StronglySorted (λ a b, id a < id b) (pokemonData st').
Proof.
  induction 1 as [|st1 st2 st3 Hstep _ IH]; [done|].
  eauto using step_store_invariant.
Qed.

Lemma reachable_store_sorted (st : State) :
  reachable st → StronglySorted (λ a b, id a < id b) (pokemonData st).
Proof.
  intros Hreach. apply (steps_store_invariant initial); [done|constructor].
Qed.

Lemma reachable_store_NoDup (st : State) :
  reachable st → NoDup (id <$> pokemonData st).
Proof.
  intros Hsorted%reachable_store_sorted.
  induction Hsorted as [|x l Hl IH Hx]; csimpl; [constructor|].
  apply NoDup_cons. split; [|done].
  intros (y & Heq & Hy)%list_elem_of_fmap.
  rewrite Forall_forall in Hx. specialize (Hx y Hy). simpl in Hx. lia.
Qed.
End loading_facts.

(** ** Effects: the table, and what pending timers do to an effect *)
Section effect_facts.
Import Effects.
Implicit Types (c : Card) (now t d : Z) (move : Move).

Lemma revert_all_activeEffect (due : list Z) c :
  activeEffect (foldl (λ c _, setActiveEffect None c) c due) =
  match due with
  | [] => activeEffect c
  | _ :: _ => None
  end.
Proof.
  revert c. induction due as [|d due IH]; intros c; simpl; [done|].
  rewrite IH. by destruct due.
Qed.

Lemma nothing_due (ts : list Z) now :
  filter (λ d, d ≤ now) ts = [] ↔ Forall (λ d, now < d) ts.
Proof.
  induction ts as [|d ts IH]; simpl.
  - split; [constructor|done].
  - rewrite filter_cons, Forall_cons. destruct (decide (d ≤ now)).
    + split; [done|]. intros [? _]. lia.
    + rewrite IH. split; [|tauto]. intros ?. split; [lia|done].
Qed.

(** Running the event loop keeps the effect exactly when no callback is
    due; the callbacks that are due leave the queue. *)
Lemma activeEffect_run_timers now c :
  activeEffect (run_timers now c) =
  if decide (Forall (λ d, now < d) (timers c)) then activeEffect c else None.
Proof.
  unfold run_timers. simpl. rewrite revert_all_activeEffect.
  destruct (decide (Forall (λ d, now < d) (timers c))) as [Hall|Hdue].
  - apply nothing_due in Hall. by rewrite Hall.
  - destruct (filter (λ d, d ≤ now) (timers c)) eqn:Hf; [|done].
    by apply nothing_due in Hf.
Qed.

Lemma timers_run_timers now c :
  timers (run_timers now c) = filter (λ d, now < d) (timers c).
Proof. done. Qed.

Lemma timers_click now move c :
  timers (click now move c) = timers (run_timers now c) ++ [now + 2000].
Proof. done. Qed.

Lemma activeEffect_click now move c :
  activeEffect (click now move c) =
  Some (default glitch (moveTypeEffects !! mv_type move)).
Proof. done. Qed.

(** The table has one entry per key, so an entry of the literal is what
    a read of the object returns. *)
Lemma moveTypeEffects_entry (type : string) (effect : ShaderPreset) :
  (type, effect) ∈ moveTypeEffects_entries →
  moveTypeEffects !! type = Some effect.
Proof.
  intros Hin. apply elem_of_list_to_map_1; [|done].
  by apply (bool_decide_eq_true_1 (NoDup moveTypeEffects_entries.*1)).
Qed.

Lemma moveTypeEffects_unknown (type : string) :
  type ∉ moveTypeEffects_entries.*1 → moveTypeEffects !! type = None.
Proof. apply not_elem_of_list_to_map_1. Qed.
End effect_facts.

(** The sessions of the statements below are checked to be within the
    model by evaluation. *)
Ltac session_modelled :=
  repeat first
    [ apply Forall_nil_2
    | apply Forall_cons_2; [first [exact I | by apply (bool_decide_unpack _)]|] ].

Section effect_claims.
Import Effects.

Lemma session_snoc (events : list (Z * Event)) (now : Z) (event : Event) :
  session (events ++ [(now, event)]) = handle now event (session events).
Proof. unfold session. by rewrite foldl_snoc. Qed.

Lemma on_screen_click (events : list (Z * Event)) (c : Card) (now t : Z) (move : Move) :
  session events = Some c →
  on_screen (events ++ [(now, MoveClick move)]) t =
  Some (image_slot (run_timers t (click now move c))).
Proof. unfold on_screen. rewrite session_snoc. by intros ->. Qed.




(** C7, as the code has it.  Take a card with what has happened to it
    since it was mounted, no move of a type that [Object.prototype] answers
    for among it.  A card shows one effect at a time, and an activation on
    a card that is on screen replaces whatever is shown by its own effect
    at once, without queueing.  No timer is cancelled: the activation adds
    its revert timer to those still pending, and, no other event of the
    card following (no activation, and no page load or error taking the
    card off the screen), its effect is shown until the first of all these
    timers is due, so for 2000 units only when none of the earlier timers
    is due before. *)
Theorem retrigger_replaces_effect_keeps_timers
    (past : list (Z * Event)) (c : Card) (now t : Z) (move : Move) :
  modelled (past ++ [(now, MoveClick move)]) →
  session past = Some c →
  now ≤ t →
  on_screen (past ++ [(now, MoveClick move)]) now =
    Some (VFXImg (default glitch (moveTypeEffects !! mv_type move))) ∧
  (timers <$> session (past ++ [(now, MoveClick move)])) =
    Some (timers (run_timers now c) ++ [now + 2000]) ∧
  on_screen (past ++ [(now, MoveClick move)]) t =
    Some (if decide (Forall (λ d, t < d) (timers (run_timers now c))
                     ∧ t < now + 2000)
          then VFXImg (default glitch (moveTypeEffects !! mv_type move))
          else PokemonImage).
Proof.
  intros _ Hpast _.
  assert (∀ u, image_slot (run_timers u (click now move c)) =
               if decide (Forall (λ d, u < d) (timers (run_timers now c))
                          ∧ u < now + 2000)
               then VFXImg (default glitch (moveTypeEffects !! mv_type move))
               else PokemonImage) as Hshown.
  { intros u. unfold image_slot.
    rewrite activeEffect_run_timers, timers_click, activeEffect_click.
    destruct (decide (Forall (λ d, u < d) (timers (run_timers now c))
                      ∧ u < now + 2000)) as [[Hall Hlt]|Hno].
    - rewrite decide_True; [done|].
      apply Forall_app. split; [done|]. by repeat constructor.
    - rewrite decide_False; [done|].
      intros [Hall [Hlt _]%Forall_cons]%Forall_app. by destruct Hno. }
  rewrite !(on_screen_click past c now _ move Hpast), session_snoc, Hpast, !Hshown.
  split_and!; [|done..].
  rewrite decide_True; [done|]. split; [|lia].
  rewrite timers_run_timers. apply Forall_forall.
  by intros d [? _]%list_elem_of_filter.
Qed.

Lemma retrigger_replaces_effect_keeps_timers_witness :
  on_screen ([(0, MoveClick (move_of_type "fire"))]
             ++ [(1500, MoveClick (move_of_type "water"))]) 1500 =
    Some (VFXImg (default glitch (moveTypeEffects !! mv_type (move_of_type "water")))) ∧
  (timers <$> session ([(0, MoveClick (move_of_type "fire"))]
                       ++ [(1500, MoveClick (move_of_type "water"))])) =
    Some (timers (run_timers 1500 (click 0 (move_of_type "fire") idle))
          ++ [1500 + 2000]) ∧
  on_screen ([(0, MoveClick (move_of_type "fire"))]
             ++ [(1500, MoveClick (move_of_type "water"))]) 2000 =
    Some (if decide (Forall (λ d, 2000 < d)
                       (timers (run_timers 1500 (click 0 (move_of_type "fire") idle)))
                     ∧ 2000 < 1500 + 2000)
          then VFXImg (default glitch (moveTypeEffects !! mv_type (move_of_type "water")))
          else PokemonImage).
Proof.
  apply (retrigger_replaces_effect_keeps_timers
           [(0, MoveClick (move_of_type "fire"))]
           (click 0 (move_of_type "fire") idle) 1500 2000 (move_of_type "water")).
  - unfold modelled. simpl. session_modelled.
  - reflexivity.
  - lia.
Defined.

(** C7 fails as stated: fire is activated at 0 and is on show at 1500,
    when water is activated; the water effect replaces it, and at 2000,
    which is 500 units after the second activation, the timer of the first
    one fires and the image is back. *)
Lemma retrigger_does_not_restart_timer :
  let clicks := [(0, move_of_type "fire"); (1500, move_of_type "water")] in
  image_slot (card_at [(0, move_of_type "fire")] 1500) = VFXImg duotone ∧
  image_slot (card_at clicks 1999) = VFXImg sinewave ∧
  1500 ≤ 2000 < 1500 + 2000 ∧
  image_slot (card_at clicks 2000) ≠ VFXImg sinewave.
Proof. simpl. split_and!; try done; lia. Qed.
End effect_claims.

(** ** The overlay *)
Section overlay_claims.
Import DataClient ViewRoot Overlay.

(** [join] gives the empty string for the empty array and for the array
    of one empty string only: [show_relation] then falls through to the
    placeholder. *)
Lemma show_relation_cases (l : list string) :
  show_relation l =
  if decide (l = [] ∨ l = [""]) then "None" else JsArray.join ", " l.
Proof.
  unfold show_relation. destruct l as [|x [|y l]].
  - by rewrite decide_True by by left.
  - destruct x as [|a x].
    + by rewrite decide_True by by right.
    + by rewrite decide_False by by intros [?|?].
  - rewrite decide_False by by intros [?|?].
    by destruct x.
Qed.

(** C5, as the code has it.  When the details of a type have been fetched,
    the modal is open on this type and has four paragraphs: the lists
    [doubleDamageFrom], [doubleDamageTo], [halfDamageFrom] and
    [halfDamageTo], each joined with commas, or "None" in place of an
    empty list (and of a list of one empty name).  The lists
    [noDamageFrom] and [noDamageTo] are in the fetched details and have no
    paragraph. *)
Theorem type_modal_shows_four_relations
    (net : Network) (typeUrl : string) (st : State) (type : PType) :
  fetchTypeDetails net typeUrl = Some type →
  selectedType (handleTypeClick net typeUrl st) = Some type ∧
  TypeModal (selectedType (handleTypeClick net typeUrl st)) =
    Some {| title := ty_name type;
            sections :=
              [ ("Weaknesses:",
                 show_relation (doubleDamageFrom (damageRelations type)));
                ("Strengths:",
                 show_relation (doubleDamageTo (damageRelations type)));
                ("Resistances:",
                 show_relation (halfDamageFrom (damageRelations type)));
                ("Not very effective against:",
                 show_relation (halfDamageTo (damageRelations type))) ] |} ∧
  ∀ l : list string,
    show_relation l =
    if decide (l = [] ∨ l = [""]) then "None" else JsArray.join ", " l.
Proof.
  intros Hfetch. unfold handleTypeClick. rewrite Hfetch.
  split_and!; [done..|apply show_relation_cases].
Qed.

Lemma type_modal_shows_four_relations_witness :
  selectedType (handleTypeClick Samples.types_only "t/11" initial) = Some water ∧
  TypeModal (selectedType (handleTypeClick Samples.types_only "t/11" initial)) =
    Some {| title := ty_name water;
            sections :=
              [ ("Weaknesses:",
                 show_relation (doubleDamageFrom (damageRelations water)));
                ("Strengths:",
                 show_relation (doubleDamageTo (damageRelations water)));
                ("Resistances:",
                 show_relation (halfDamageFrom (damageRelations water)));
                ("Not very effective against:",
                 show_relation (halfDamageTo (damageRelations water))) ] |} ∧
  ∀ l : list string,
    show_relation l =
    if decide (l = [] ∨ l = [""]) then "None" else JsArray.join ", " l.
Proof.
  apply (type_modal_shows_four_relations Samples.types_only "t/11" initial water).
  reflexivity.
Defined.

(** C5 fails as stated: were each of the six lists on display, the modal
    for water, whose [noDamageTo] is empty, would show "None"; its four
    paragraphs hold other texts. *)
Lemma type_modal_omits_no_damage_lists :
  ¬ ∀ type : PType,
      Forall (λ relation,
                show_relation (relation (damageRelations type)) ∈ displayed type)
             six_relations.
Proof.
  intros Hall. specialize (Hall water).
  rewrite Forall_forall in Hall.
  assert (noDamageTo ∈ six_relations) as Hsix.
  { unfold six_relations. do 5 apply list_elem_of_further. apply list_elem_of_here. }
  apply Hall, list_elem_of_In in Hsix. vm_compute in Hsix.
  intuition discriminate.
Qed.

Example water_modal :
  TypeModal (Some water) =
  Some {| title := "water";
          sections := [ ("Weaknesses:", "grass, electric");
                        ("Strengths:", "fire, ground, rock");
                        ("Resistances:", "fire, water, ice, steel");
                        ("Not very effective against:", "water, grass, dragon") ] |}.
Proof. reflexivity. Qed.
End overlay_claims.

(** ** Examples *)

Example merge_collision :
  Store.merge [Store.named 2 "old"; Store.named 1 "a"]
              [Store.named 3 "c"; Store.named 2 "new"; Store.named 2 "newer"]
  = [Store.named 1 "a"; Store.named 2 "newer"; Store.named 3 "c"].
Proof. reflexivity. Qed.

Example fetch_first_page_offline :
  ViewRoot.Component (ViewRoot.fetchPokemon Samples.offline ViewRoot.initial)
  = ViewRoot.ErrorScreen ViewRoot.failure_message.
Proof. reflexivity. Qed.

Example effect_for_unknown_type :
  Effects.image_slot (Effects.click 0 (Effects.move_of_type "shadow") Effects.idle)
  = Effects.VFXImg Effects.glitch.
Proof. reflexivity. Qed.

(** * Further properties of the code *)

(** ** The store across pages *)
Section merge_more.
Implicit Types (k : Z) (x y : Pokemon) (l existing incoming : list Pokemon).

Lemma last_by_id_is_Some k l :
  is_Some (Store.last_by_id k l) ↔ k ∈ id <$> l.
Proof.
  unfold Store.last_by_id, Store.with_id.
  rewrite last_is_Some, list_elem_of_fmap. split.
  - intros Hne. destruct (filter (λ e, id e = k) l) as [|y f] eqn:Hf; [done|].
    assert (y ∈ filter (λ e, id e = k) l) as Hy by (rewrite Hf; left).
    apply list_elem_of_filter in Hy as [Hid Hin]. by exists y.
  - intros (y & -> & Hin) Hnil.
    by apply (filter_nil_not_elem_of _ _ y) in Hnil.
Qed.

(** Among entities with distinct ids, the id tells the entity. *)
Lemma distinct_ids_inj l x y :
  NoDup (id <$> l) → x ∈ l → y ∈ l → id x = id y → x = y.
Proof.
  induction l as [|a l IH]; csimpl; [by intros _ ?%elem_of_nil|].
  rewrite NoDup_cons, !elem_of_cons. intros [Hnin Hnd] [->|Hx] [->|Hy] Hid.
  - done.
  - destruct Hnin. rewrite Hid. by apply list_elem_of_fmap_2.
  - destruct Hnin. rewrite <-Hid. by apply list_elem_of_fmap_2.
  - by apply IH.
Qed.

Lemma last_by_id_distinct l x :
  NoDup (id <$> l) → Store.last_by_id (id x) l = Some x ↔ x ∈ l.
Proof.
  intros Hnd. split; [by intros [_ ?]%last_by_id_Some|].
  intros Hin. unfold Store.last_by_id.
  rewrite (with_id_unique (id x) l (Some x)); [done..|].
  intros y. split.
  - intros [Hy Hid]. f_equal. by apply (distinct_ids_inj l).
  - by intros [= <-].
Qed.

Lemma with_id_distinct_length k l :
  NoDup (id <$> l) → (length (Store.with_id k l) ≤ 1)%nat.
Proof.
  intros Hnd. unfold Store.with_id.
  destruct (filter (λ e, id e = k) l) as [|x [|y f]] eqn:Hf; simpl; [lia..|].
  exfalso.
  assert (NoDup (filter (λ e, id e = k) l)) as Hndf.
  { apply NoDup_filter. by apply NoDup_fmap_1 in Hnd. }
  assert (x ∈ filter (λ e, id e = k) l) as Hx by (rewrite Hf; left).
  assert (y ∈ filter (λ e, id e = k) l) as Hy by (rewrite Hf; right; left).
  apply list_elem_of_filter in Hx as [Hxk Hx], Hy as [Hyk Hy].
  assert (x = y) as -> by (apply (distinct_ids_inj l); congruence).
  rewrite Hf in Hndf. apply NoDup_cons in Hndf as [Hnin _].
  apply Hnin. left.
Qed.

Lemma last_by_id_Permutation k l l' :
  NoDup (id <$> l) → l ≡ₚ l' → Store.last_by_id k l = Store.last_by_id k l'.
Proof.
  intros Hnd Hperm. unfold Store.last_by_id. f_equal.
  assert (NoDup (id <$> l')) as Hnd' by by rewrite <-Hperm.
  pose proof (with_id_distinct_length k l Hnd) as Hlen.
  pose proof (with_id_distinct_length k l' Hnd') as Hlen'.
  assert (Store.with_id k l ≡ₚ Store.with_id k l') as Hf.
  { unfold Store.with_id. by rewrite Hperm. }
  destruct (Store.with_id k l) as [|x [|??]]; simpl in Hlen; [| |lia].
  - by apply Permutation_nil_l in Hf.
  - by apply Permutation_singleton_l in Hf.
Qed.

Lemma strictly_sorted_distinct_ids l :
  StronglySorted (λ a b, id a < id b) l → NoDup (id <$> l).
Proof.
  induction 1 as [|x l Hl IH Hx]; csimpl; [constructor|].
  apply NoDup_cons. split; [|done].
  intros (y & Heq & Hy)%list_elem_of_fmap.
  rewrite Forall_forall in Hx. specialize (Hx y Hy). simpl in Hx. lia.
Qed.

(** Two merges agree as soon as their inputs put the same entity last
    under every id. *)
Lemma merge_ext existing incoming existing' incoming' :
  (∀ k, Store.last_by_id k (existing ++ incoming) =
        Store.last_by_id k (existing' ++ incoming')) →
  Store.merge existing incoming = Store.merge existing' incoming'.
Proof.
  intros Hlast.
  apply (StronglySorted_unique_strong (λ a b, id a < id b));
    [intros; lia|apply merge_strictly_sorted..|].
  apply NoDup_Permutation;
    [eapply NoDup_fmap_1, merge_NoDup_ids..|].
  intros x. by rewrite !elem_of_merge, Hlast.
Qed.

(** X1. A merge invents nothing and loses no id: each merged entity is
    one of the existing or of the incoming ones, the merged ids are those
    of the two inputs together, and the merged sequence is no longer than
    the inputs together. *)
Theorem merge_keeps_every_id existing incoming :
  (∀ x, x ∈ Store.merge existing incoming → x ∈ existing ∨ x ∈ incoming) ∧
  (∀ k, k ∈ id <$> Store.merge existing incoming ↔
        k ∈ id <$> existing ∨ k ∈ id <$> incoming) ∧
  (length (Store.merge existing incoming) ≤ length existing + length incoming)%nat.
Proof.
  assert (∀ k, k ∈ id <$> Store.merge existing incoming ↔
               k ∈ id <$> (existing ++ incoming)) as Hids.
  { intros k. rewrite <-!last_by_id_is_Some. by rewrite last_by_id_merge. }
  split_and!.
  - intros x [_ Hin]%elem_of_merge%last_by_id_Some. by apply elem_of_app.
  - intros k. by rewrite Hids, fmap_app, elem_of_app.
  - rewrite <-length_app, <-(length_fmap id), <-(length_fmap id (_ ++ _)).
    apply submseteq_length, NoDup_submseteq; [apply merge_NoDup_ids|].
    intros k. apply Hids.
Qed.

(** X2. Merging one page and then the next gives the store that merging
    the two pages at once gives. *)
Theorem merge_pages_compose existing page1 page2 :
  Store.merge (Store.merge existing page1) page2 =
  Store.merge existing (page1 ++ page2).
Proof.
  apply merge_ext. intros k.
  by rewrite app_assoc, !(last_by_id_app _ _ page2), last_by_id_merge.
Qed.

(** X3. When no id occurs twice in the existing and the incoming entities
    taken together, the merge drops and replaces nothing: it is a
    rearrangement of all of them. *)
Theorem merge_distinct_ids_Permutation existing incoming :
  NoDup (id <$> existing ++ incoming) →
  Store.merge existing incoming ≡ₚ existing ++ incoming.
Proof.
  intros Hnd. apply NoDup_Permutation.
  - eapply NoDup_fmap_1, merge_NoDup_ids.
  - by eapply NoDup_fmap_1.
  - intros x. rewrite elem_of_merge. by apply last_by_id_distinct.
Qed.

Lemma merge_distinct_ids_Permutation_witness :
  Store.merge [Store.bare 7; Store.bare 2] [Store.bare 5; Store.bare 1]
  ≡ₚ [Store.bare 7; Store.bare 2] ++ [Store.bare 5; Store.bare 1].
Proof.
  apply (merge_distinct_ids_Permutation
           [Store.bare 7; Store.bare 2] [Store.bare 5; Store.bare 1]).
  apply (bool_decide_unpack _). reflexivity.
Defined.

(** X4. The order of the entities within the store and within a page does
    not matter to the result, as long as neither has an id twice. *)
Theorem merge_order_irrelevant existing existing' incoming incoming' :
  NoDup (id <$> existing) → NoDup (id <$> incoming) →
  existing ≡ₚ existing' → incoming ≡ₚ incoming' →
  Store.merge existing incoming = Store.merge existing' incoming'.
Proof.
  intros Hnde Hndi Hpe Hpi. apply merge_ext. intros k.
  rewrite !last_by_id_app.
  by rewrite (last_by_id_Permutation k _ _ Hnde Hpe),
             (last_by_id_Permutation k _ _ Hndi Hpi).
Qed.

Lemma merge_order_irrelevant_witness :
  Store.merge [Store.bare 7; Store.bare 2] [Store.named 2 "b"; Store.bare 1] =
  Store.merge [Store.bare 2; Store.bare 7] [Store.bare 1; Store.named 2 "b"].
Proof.
  apply (merge_order_irrelevant [Store.bare 7; Store.bare 2] [Store.bare 2; Store.bare 7]
           [Store.named 2 "b"; Store.bare 1] [Store.bare 1; Store.named 2 "b"]).
  - apply (bool_decide_unpack _). reflexivity.
  - apply (bool_decide_unpack _). reflexivity.
  - apply Permutation_swap.
  - apply Permutation_swap.
Defined.

(** X5. A page all of whose entities are in the store already, the store
    being in strict order of id, leaves the store as it is. *)
Theorem merge_nothing_new existing incoming :
  StronglySorted (λ a b, id a < id b) existing →
  (∀ x, x ∈ incoming → x ∈ existing) →
  Store.merge existing incoming = existing.
Proof.
  intros Hsorted Hsub.
  pose proof (strictly_sorted_distinct_ids _ Hsorted) as Hnd.
  apply (StronglySorted_unique_strong (λ a b, id a < id b));
    [intros; lia|apply merge_strictly_sorted|done|].
  apply NoDup_Permutation;
    [eapply NoDup_fmap_1, merge_NoDup_ids|by eapply NoDup_fmap_1|].
  intros x. rewrite elem_of_merge, last_by_id_app. split.
  - destruct (Store.last_by_id (id x) incoming) as [y|] eqn:Hy.
    + intros [= ->]. by apply last_by_id_Some in Hy as [_ ?%Hsub].
    + by intros [_ ?]%last_by_id_Some.
  - intros Hin.
    destruct (Store.last_by_id (id x) incoming) as [y|] eqn:Hy.
    + apply last_by_id_Some in Hy as [Hid Hy%Hsub].
      f_equal. by apply (distinct_ids_inj existing).
    + by apply last_by_id_distinct.
Qed.

Lemma merge_nothing_new_witness :
  Store.merge [Store.bare 1; Store.bare 2; Store.bare 5] [Store.bare 5; Store.bare 1]
  = [Store.bare 1; Store.bare 2; Store.bare 5].
Proof.
  apply (merge_nothing_new [Store.bare 1; Store.bare 2; Store.bare 5]
           [Store.bare 5; Store.bare 1]).
  - apply (bool_decide_unpack _). reflexivity.
  - intros x Hx. apply list_elem_of_In in Hx. apply list_elem_of_In.
    simpl in *. tauto.
Defined.
End merge_more.

(** ** The page fetch: when it fails, when it ends, what it delivers *)
Section fetch_more.
Import DataClient.
Context (net : Network).

Lemma mapM_ext_elem {A B} (f g : A → option B) (l : list A) :
  (∀ x, x ∈ l → f x = g x) → mapM f l = mapM g l.
Proof.
  induction l as [|x l IH]; intros Hfg; [done|]. csimpl.
  rewrite (Hfg x) by left. destruct (g x) as [y|]; csimpl; [|done].
  f_equal. apply IH. intros z Hz. apply Hfg. by right.
Qed.

Lemma resolve_pokemon_None (item : Summary) :
  resolve_pokemon net item = None →
  get_pokemon net (su_url item) = None ∨
  ∃ details move,
    get_pokemon net (su_url item) = Some details ∧
    move ∈ take 3 (d_moves details) ∧
    get_move net (ms_url move) = None.
Proof.
  unfold resolve_pokemon.
  destruct (get_pokemon net (su_url item)) as [details|]; [|by left].
  simpl. intros Hnone. right.
  destruct (mapM (resolve_move net) (take 3 (d_moves details))) as [ms|] eqn:Hms;
    [done|].
  apply mapM_None_1, Exists_exists in Hms as (move & Hin & Hmove).
  exists details, move. split_and!; [done..|].
  unfold resolve_move in Hmove.
  by destruct (get_move net (ms_url move)).
Qed.

(** X6. A page fetch fails exactly when one of its requests fails: the
    list, the details of a listed item, or one of the first three moves of
    a listed item.  No other request can make it fail. *)
Theorem fetchPage_fails_iff (page : Z) :
  fetchPage net page = PageFailed ↔ sub_request_fails net page.
Proof.
  split; [|apply fetchPage_fails].
  unfold fetchPage. simpl.
  destruct (get_list net 20 ((page - 1) * 20)) as [results|] eqn:Hlist;
    [|intros _; by apply list_fails].
  destruct (decide (length results = 0%nat)); [done|].
  destruct (mapM (resolve_pokemon net) results) as [l|] eqn:Hl; [done|].
  intros _. apply mapM_None_1, Exists_exists in Hl as (item & Hin & Hitem).
  apply resolve_pokemon_None in Hitem as [Hdet|(details & move & Hdet & Hmv & Hmove)].
  - by eapply details_fail.
  - by eapply move_fails.
Qed.

(** X7. A page fetch reports the end of the list exactly when the list
    endpoint answers with no item. *)
Theorem fetchPage_no_more_iff (page : Z) :
  fetchPage net page = NoMorePages ↔
  get_list net 20 ((page - 1) * 20) = Some [].
Proof.
  unfold fetchPage. simpl.
  destruct (get_list net 20 ((page - 1) * 20)) as [[|item results]|];
    [done| |done].
  rewrite decide_False by done.
  by destruct (mapM (resolve_pokemon net) (item :: results)).
Qed.

Lemma resolve_move_Some (slot : MoveSlot) (move : Move) :
  resolve_move net slot = Some move →
  mv_url move = ms_url slot ∧
  ∃ moveDetails,
    get_move net (ms_url slot) = Some moveDetails ∧
    mv_name move = md_name moveDetails ∧
    mv_type move = md_type_name moveDetails.
Proof.
  unfold resolve_move.
  destruct (get_move net (ms_url slot)) as [md|]; [|done].
  simpl. intros [= <-]. eauto.
Qed.

(** X8. A page that loads delivers one entity per listed item, in the
    order of the list; each entity has the id, the name, the types and the
    sprites of its details, and one move for each of the first three moves
    of its details, in their order, with the url of the slot and the name
    and the type that the move endpoint gives.  So no entity has more than
    three moves. *)
Theorem fetchPage_loaded (page : Z) (pokemonDetails : list Pokemon) :
  fetchPage net page = PageLoaded pokemonDetails →
  ∃ results,
    get_list net 20 ((page - 1) * 20) = Some results ∧
    results ≠ [] ∧
    Forall2
      (λ item pokemon,
         ∃ details,
           get_pokemon net (su_url item) = Some details ∧
           id pokemon = d_id details ∧
           name pokemon = d_name details ∧
           types pokemon = d_types details ∧
           sprite pokemon = d_front_default details ∧
           shinySprite pokemon = d_front_shiny details ∧
           (length (moves pokemon) ≤ 3)%nat ∧
           Forall2
             (λ slot move,
                mv_url move = ms_url slot ∧
                ∃ moveDetails,
                  get_move net (ms_url slot) = Some moveDetails ∧
                  mv_name move = md_name moveDetails ∧
                  mv_type move = md_type_name moveDetails)
             (take 3 (d_moves details)) (moves pokemon))
      results pokemonDetails.
Proof.
  unfold fetchPage. simpl.
  destruct (get_list net 20 ((page - 1) * 20)) as [results|]; [|done].
  destruct (decide (length results = 0%nat)) as [|Hlen]; [done|].
  destruct (mapM (resolve_pokemon net) results) as [l|] eqn:Hl; [|done].
  intros [= <-]. exists results. split_and!; [done|by intros ->|].
  apply mapM_Some_1 in Hl. eapply Forall2_impl; [exact Hl|].
  intros item pokemon. unfold resolve_pokemon.
  destruct (get_pokemon net (su_url item)) as [details|]; [|done]. simpl.
  destruct (mapM (resolve_move net) (take 3 (d_moves details))) as [ms|] eqn:Hms;
    [|done].
  simpl. intros [= <-]. exists details. simpl.
  apply mapM_Some_1 in Hms. split_and!; try done.
  - apply Forall2_length in Hms. rewrite <-Hms, length_take. lia.
  - eapply Forall2_impl; [exact Hms|]. apply resolve_move_Some.
Qed.
End fetch_more.

Lemma fetchPage_loaded_witness :
  ∃ results,
    DataClient.get_list Served.network 20 ((1 - 1) * 20) = Some results ∧
    results ≠ [] ∧
    Forall2
      (λ item pokemon,
         ∃ details,
           DataClient.get_pokemon Served.network (DataClient.su_url item)
             = Some details ∧
           id pokemon = DataClient.d_id details ∧
           name pokemon = DataClient.d_name details ∧
           types pokemon = DataClient.d_types details ∧
           sprite pokemon = DataClient.d_front_default details ∧
           shinySprite pokemon = DataClient.d_front_shiny details ∧
           (length (moves pokemon) ≤ 3)%nat ∧
           Forall2
             (λ slot move,
                mv_url move = DataClient.ms_url slot ∧
                ∃ moveDetails,
                  DataClient.get_move Served.network (DataClient.ms_url slot)
                    = Some moveDetails ∧
                  mv_name move = DataClient.md_name moveDetails ∧
                  mv_type move = DataClient.md_type_name moveDetails)
             (take 3 (DataClient.d_moves details)) (moves pokemon))
      results
      [ {| id := 4; name := "charmander";
           types := [ {| tr_name := "fire"; tr_url := "t/10" |} ];
           moves := [ {| mv_name := "a move"; mv_type := "normal"; mv_url := "m/5" |} ];
           sprite := "4.png"; shinySprite := "s4.png" |};
        {| id := 1; name := "bulbasaur";
           types := [ {| tr_name := "grass"; tr_url := "t/12" |};
                      {| tr_name := "poison"; tr_url := "t/4" |} ];
           moves := [ {| mv_name := "a move"; mv_type := "normal"; mv_url := "m/13" |};
                      {| mv_name := "a move"; mv_type := "normal"; mv_url := "m/14" |};
                      {| mv_name := "a move"; mv_type := "normal"; mv_url := "m/15" |} ];
           sprite := "1.png"; shinySprite := "s1.png" |} ].
Proof.
  apply (fetchPage_loaded Served.network 1). reflexivity.
Defined.

(** X9. A page fetch reads its own window of the list, the details of the
    listed items and their first three moves, and nothing else: two
    networks that agree on these give the same result, whatever they
    answer for other windows, other entities, later moves or types. *)
Theorem fetchPage_reads_only_its_page (net net' : DataClient.Network) (page : Z) :
  DataClient.get_list net 20 ((page - 1) * 20) =
    DataClient.get_list net' 20 ((page - 1) * 20) →
  (∀ results item,
     DataClient.get_list net 20 ((page - 1) * 20) = Some results →
     item ∈ results →
     DataClient.get_pokemon net (DataClient.su_url item) =
       DataClient.get_pokemon net' (DataClient.su_url item)) →
  (∀ results item details move,
     DataClient.get_list net 20 ((page - 1) * 20) = Some results →
     item ∈ results →
     DataClient.get_pokemon net (DataClient.su_url item) = Some details →
     move ∈ take 3 (DataClient.d_moves details) →
     DataClient.get_move net (DataClient.ms_url move) =
       DataClient.get_move net' (DataClient.ms_url move)) →
  DataClient.fetchPage net page = DataClient.fetchPage net' page.
Proof.
  intros Hlist Hdet Hmove. unfold DataClient.fetchPage. simpl.
  rewrite <-Hlist.
  destruct (DataClient.get_list net 20 ((page - 1) * 20)) as [results|]; [|done].
  destruct (decide (length results = 0%nat)); [done|].
  rewrite (mapM_ext_elem (DataClient.resolve_pokemon net)
             (DataClient.resolve_pokemon net') results); [done|].
  intros item Hin. unfold DataClient.resolve_pokemon.
  rewrite <-(Hdet results item eq_refl Hin).
  destruct (DataClient.get_pokemon net (DataClient.su_url item))
    as [details|] eqn:Hdetails; [|done].
  simpl.
  rewrite (mapM_ext_elem (DataClient.resolve_move net)
             (DataClient.resolve_move net')
             (take 3 (DataClient.d_moves details))); [done|].
  intros move Hmv. unfold DataClient.resolve_move.
  by rewrite (Hmove results item details move eq_refl Hin Hdetails Hmv).
Qed.

Lemma fetchPage_reads_only_its_page_witness :
  DataClient.fetchPage Served.network 1 = DataClient.fetchPage Served.other_network 1.
Proof.
  apply (fetchPage_reads_only_its_page Served.network Served.other_network 1).
  - reflexivity.
  - reflexivity.
  - intros results item details move [= <-] Hin Hdetails Hmv.
    apply list_elem_of_In in Hin. simpl in Hin.
    destruct Hin as [<-|[<-|[]]]; injection Hdetails as <-;
      apply list_elem_of_In in Hmv; simpl in Hmv;
      intuition subst; reflexivity.
Defined.

(** ** The view state under events *)
Section view_more.
Import DataClient ViewRoot.

Lemma observing_spec (st : State) :
  observing st =
  negb (loading st) &&
  match error st with Some (String _ _) => false | _ => true end &&
  match pokemonData st with [] => false | _ :: _ => true end.
Proof.
  unfold observing, Component.
  destruct (loading st); [done|]. simpl.
  by destruct (error st) as [[|??]|], (pokemonData st).
Qed.

(** X10. A report of the observer triggers a page fetch only when nothing
    is loading, no error is on screen, the store has a card, the last card
    intersects and there may be more pages; the fetch is then for the next
    page.  In every other case, in particular while a fetch is in flight,
    the report changes nothing. *)
Theorem intersect_cases (net : Network) (st : State) (isIntersecting : bool) :
  intersect net st isIntersecting =
  if negb (loading st) &&
     match error st with Some (String _ _) => false | _ => true end &&
     match pokemonData st with [] => false | _ :: _ => true end &&
     isIntersecting && hasMore st
  then fetchPokemon net (setPage (page st + 1) st)
  else st.
Proof.
  unfold intersect. rewrite <-observing_spec.
  destruct (observing st); [|done]. simpl.
  unfold observer_callback.
  destruct (isIntersecting && hasMore st); simpl.
  - rewrite decide_False; [done|lia].
  - by rewrite decide_True.
Qed.

(** X11. After a page fetch in which a request failed, no report of the
    observer triggers a fetch any more, whatever the network would answer:
    pagination has stopped. *)
Theorem failed_fetch_halts_pagination
    (net net' : Network) (st : State) (reports : list bool) :
  sub_request_fails net (page st) →
  foldl (intersect net') (fetchPokemon net st) reports = fetchPokemon net st.
Proof.
  intros Hfail%fetchPage_fails.
  rewrite (fetchPokemon_failed net st Hfail).
  induction reports as [|b reports IH]; [done|].
  simpl. unfold intersect at 2. by rewrite observing_spec.
Qed.

Lemma failed_fetch_halts_pagination_witness :
  foldl (intersect Served.network)
    (fetchPokemon Samples.flaky Samples.two_cards) [true; false; true]
  = fetchPokemon Samples.flaky Samples.two_cards.
Proof.
  apply (failed_fetch_halts_pagination Samples.flaky Served.network
           Samples.two_cards [true; false; true]).
  apply (move_fails Samples.flaky 2
           [ {| su_name := "bulbasaur"; su_url := "p/1" |} ]
           {| su_name := "bulbasaur"; su_url := "p/1" |}
           {| d_id := 1; d_name := "bulbasaur"; d_types := [];
              d_moves := [ {| ms_name := "razor-wind"; ms_url := "m/13" |};
                           {| ms_name := "swords-dance"; ms_url := "m/14" |} ];
              d_front_default := "1.png"; d_front_shiny := "s1.png" |}
           {| ms_name := "swords-dance"; ms_url := "m/14" |});
    [reflexivity|apply list_elem_of_here|reflexivity
    |apply list_elem_of_further, list_elem_of_here|reflexivity].
Defined.
End view_more.

Section sessions.
Import DataClient ViewRoot.

Lemma intersect_inv (net : Network) (st : State) (isIntersecting : bool) :
  intersect net st isIntersecting = st ∨
  loading st = false ∧ hasMore st = true ∧
  intersect net st isIntersecting = fetchPokemon net (setPage (page st + 1) st).
Proof.
  unfold intersect. rewrite observing_spec.
  destruct (loading st); [by left|]. simpl.
  destruct (_ && _); [|by left]. unfold observer_callback.
  destruct isIntersecting, (hasMore st); simpl;
    rewrite ?decide_True by done; [|by left..].
  right. rewrite decide_False; [done|lia].
Qed.

(** What [fetchPokemon] does to the cells other than the store. *)
Lemma fetchPokemon_cells (net : Network) (st : State) :
  page (fetchPokemon net st) = page st ∧
  selectedType (fetchPokemon net st) = selectedType st ∧
  (hasMore (fetchPokemon net st) = hasMore st ∨
   hasMore (fetchPokemon net st) = false) ∧
  (error (fetchPokemon net st) = error st ∨
   error (fetchPokemon net st) = Some failure_message).
Proof.
  unfold fetchPokemon. simpl.
  destruct (fetchPage net (page st)); simpl; auto.
Qed.

Lemma elem_of_merge_ids (k : Z) (existing incoming : list Pokemon) :
  k ∈ id <$> Store.merge existing incoming ↔
  k ∈ id <$> existing ∨ k ∈ id <$> incoming.
Proof.
  rewrite <-elem_of_app, <-fmap_app, <-!last_by_id_is_Some.
  by rewrite last_by_id_merge.
Qed.

(** X12. When a page loads and no error is set, the view is the grid with
    the merged store and without loading line, the modal being as before;
    the ids on screen are those that were there and those of the page. *)
Theorem loaded_page_shows_grid
    (net : Network) (st : State) (pokemonDetails : list Pokemon) :
  fetchPage net (page st) = PageLoaded pokemonDetails →
  error st = None →
  Component (fetchPokemon net st) =
    GridView (Store.merge (pokemonData st) pokemonDetails) false
             (Overlay.TypeModal (selectedType st)) ∧
  ∀ k, k ∈ id <$> cards_shown (Component (fetchPokemon net st)) ↔
       k ∈ id <$> pokemonData st ∨ k ∈ id <$> pokemonDetails.
Proof.
  intros Hpage Herr.
  assert (Component (fetchPokemon net st) =
          GridView (Store.merge (pokemonData st) pokemonDetails) false
                   (Overlay.TypeModal (selectedType st))) as Hview.
  { unfold fetchPokemon, Component. simpl. rewrite Hpage. simpl. by rewrite Herr. }
  split; [done|]. intros k. rewrite Hview. simpl. apply elem_of_merge_ids.
Qed.

Lemma loaded_page_shows_grid_witness :
  Component (fetchPokemon Served.network initial) =
    GridView
      (Store.merge (pokemonData initial)
         [ {| id := 4; name := "charmander";
              types := [ {| tr_name := "fire"; tr_url := "t/10" |} ];
              moves := [ {| mv_name := "a move"; mv_type := "normal"; mv_url := "m/5" |} ];
              sprite := "4.png"; shinySprite := "s4.png" |};
           {| id := 1; name := "bulbasaur";
              types := [ {| tr_name := "grass"; tr_url := "t/12" |};
                         {| tr_name := "poison"; tr_url := "t/4" |} ];
              moves := [ {| mv_name := "a move"; mv_type := "normal"; mv_url := "m/13" |};
                         {| mv_name := "a move"; mv_type := "normal"; mv_url := "m/14" |};
                         {| mv_name := "a move"; mv_type := "normal"; mv_url := "m/15" |} ];
              sprite := "1.png"; shinySprite := "s1.png" |} ])
      false (Overlay.TypeModal (selectedType initial)) ∧
  ∀ k, k ∈ id <$> cards_shown (Component (fetchPokemon Served.network initial)) ↔
       k ∈ id <$> pokemonData initial ∨
       k ∈ id <$>
         [ {| id := 4; name := "charmander";
              types := [ {| tr_name := "fire"; tr_url := "t/10" |} ];
              moves := [ {| mv_name := "a move"; mv_type := "normal"; mv_url := "m/5" |} ];
              sprite := "4.png"; shinySprite := "s4.png" |};
           {| id := 1; name := "bulbasaur";
              types := [ {| tr_name := "grass"; tr_url := "t/12" |};
                         {| tr_name := "poison"; tr_url := "t/4" |} ];
              moves := [ {| mv_name := "a move"; mv_type := "normal"; mv_url := "m/13" |};
                         {| mv_name := "a move"; mv_type := "normal"; mv_url := "m/14" |};
                         {| mv_name := "a move"; mv_type := "normal"; mv_url := "m/15" |} ];
              sprite := "1.png"; shinySprite := "s1.png" |} ].
Proof.
  apply (loaded_page_shows_grid Served.network initial); reflexivity.
Defined.

(** X13. In every state that a session reaches, the cards on screen are
    in strictly ascending order of id; no two of them have the same id. *)
Theorem reachable_cards_in_order (st : State) :
  reachable st →
  StronglySorted (λ a b, id a < id b) (cards_shown (Component st)).
Proof.
  intros Hsorted%reachable_store_sorted. unfold Component.
  destruct (loading st); [constructor|].
  destruct (error st) as [[|??]|]; simpl; done || constructor.
Qed.

Lemma reachable_cards_in_order_witness :
  StronglySorted (λ a b, id a < id b)
    (cards_shown (Component (fetchPokemon Served.network initial))).
Proof.
  apply (reachable_cards_in_order (fetchPokemon Served.network initial)).
  apply rtc_once, step_fetch.
Defined.

(** X14. An event leaves the page cursor where it is or moves it forward
    by one; it moves only when nothing is loading and more pages are
    expected. *)
Theorem cursor_advances_by_one (st st' : State) :
  step st st' →
  page st' = page st ∨
  page st' = page st + 1 ∧ loading st = false ∧ hasMore st = true.
Proof.
  destruct 1 as [net st|net st b|net url st|st].
  - left. apply fetchPokemon_cells.
  - destruct (intersect_inv net st b) as [->|(Hl & Hm & ->)]; [by left|].
    right. split; [|done]. by destruct (fetchPokemon_cells net (setPage (page st + 1) st)) as [-> _].
  - left. unfold handleTypeClick. by destruct (fetchTypeDetails net url).
  - by left.
Qed.

Lemma cursor_advances_by_one_witness :
  page (intersect Served.network Samples.two_cards true) = page Samples.two_cards ∨
  page (intersect Served.network Samples.two_cards true) = page Samples.two_cards + 1 ∧
  loading Samples.two_cards = false ∧ hasMore Samples.two_cards = true.
Proof.
  apply (cursor_advances_by_one Samples.two_cards
           (intersect Served.network Samples.two_cards true)).
  apply step_intersect.
Defined.

Lemma step_page_bounds (st st' : State) :
  step st st' → page st ≤ page st' ≤ page st + 1.
Proof.
  destruct 1 as [net st|net st b|net url st|st].
  - destruct (fetchPokemon_cells net st) as [-> _]. lia.
  - destruct (intersect_inv net st b) as [->|(_ & _ & ->)]; [lia|].
    destruct (fetchPokemon_cells net (setPage (page st + 1) st)) as [-> _].
    simpl. lia.
  - unfold handleTypeClick. destruct (fetchTypeDetails net url); simpl; lia.
  - simpl. lia.
Qed.

(** X15. Through a session the page cursor never goes back, and it is at
    least 1: the offset of every request to the list endpoint is zero or
    more. *)
Theorem cursor_never_goes_back (st st' : State) :
  reachable st → rtc step st st' →
  1 ≤ page st ≤ page st' ∧ 0 ≤ (page st' - 1) * 20.
Proof.
  assert (∀ s s', rtc step s s' → page s ≤ page s') as Hle.
  { induction 1 as [|s1 s2 s3 Hstep%step_page_bounds _ IH]; lia. }
  intros Hreach%Hle Hsteps%Hle. simpl in Hreach. lia.
Qed.

Lemma cursor_never_goes_back_witness :
  1 ≤ page (fetchPokemon Served.network initial)
    ≤ page (intersect Served.network (fetchPokemon Served.network initial) true) ∧
  0 ≤ (page (intersect Served.network (fetchPokemon Served.network initial) true) - 1) * 20.
Proof.
  apply (cursor_never_goes_back (fetchPokemon Served.network initial)
           (intersect Served.network (fetchPokemon Served.network initial) true)).
  - apply rtc_once, step_fetch.
  - apply rtc_once, step_intersect.
Defined.

Lemma step_hasMore_off (st st' : State) :
  step st st' → hasMore st = false →
  hasMore st' = false ∧ page st' = page st.
Proof.
  destruct 1 as [net st|net st b|net url st|st]; intros Hoff.
  - destruct (fetchPokemon_cells net st) as (-> & _ & [->| ->] & _); done.
  - destruct (intersect_inv net st b) as [->|(_ & Hon & _)]; [done|congruence].
  - unfold handleTypeClick. by destruct (fetchTypeDetails net url).
  - done.
Qed.

(** X16. Once a fetch has found the end of the list, "has more" stays
    false and the page cursor stays where it is, whatever happens next. *)
Theorem end_of_list_is_final (st st' : State) :
  rtc step st st' → hasMore st = false →
  hasMore st' = false ∧ page st' = page st.
Proof.
  induction 1 as [|st1 st2 st3 Hstep _ IH]; [done|].
  intros Hoff. destruct (step_hasMore_off _ _ Hstep Hoff) as [Hoff2 <-].
  by apply IH.
Qed.

Lemma end_of_list_is_final_witness :
  hasMore (intersect Served.network
             (fetchPokemon Served.network
                (fetchPokemon Samples.exhausted Samples.two_cards)) true) = false ∧
  page (intersect Served.network
          (fetchPokemon Served.network
             (fetchPokemon Samples.exhausted Samples.two_cards)) true)
  = page (fetchPokemon Samples.exhausted Samples.two_cards).
Proof.
  apply (end_of_list_is_final (fetchPokemon Samples.exhausted Samples.two_cards)).
  - eapply rtc_l; [apply (step_fetch Served.network)|].
    apply rtc_once, (step_intersect Served.network _ true).
  - reflexivity.
Defined.

Lemma step_error_set (st st' : State) :
  step st st' → error st = Some failure_message →
  error st' = Some failure_message.
Proof.
  destruct 1 as [net st|net st b|net url st|st]; intros Herr.
  - destruct (fetchPokemon_cells net st) as (_ & _ & _ & [->| ->]); done.
  - unfold intersect. rewrite observing_spec, Herr.
    by rewrite andb_false_r.
  - unfold handleTypeClick. by destruct (fetchTypeDetails net url).
  - done.
Qed.

(** X17. Once the error message is set it stays set, whatever happens
    next, and the grid is never on screen again: no card is shown. *)
Theorem error_is_final (st st' : State) :
  rtc step st st' → error st = Some failure_message →
  error st' = Some failure_message ∧ cards_shown (Component st') = [].
Proof.
  intros Hsteps Herr.
  assert (error st' = Some failure_message) as Herr'.
  { induction Hsteps as [|st1 st2 st3 Hstep _ IH]; [done|].
    eauto using step_error_set. }
  split; [done|]. unfold Component. rewrite Herr'.
  by destruct (loading st').
Qed.

Lemma error_is_final_witness :
  error (fetchPokemon Served.network (fetchPokemon Samples.offline initial))
    = Some failure_message ∧
  cards_shown
    (Component (fetchPokemon Served.network (fetchPokemon Samples.offline initial)))
    = [].
Proof.
  apply (error_is_final (fetchPokemon Samples.offline initial)).
  - apply rtc_once, step_fetch.
  - reflexivity.
Defined.

(** X18. The answers to the detail requests of several type clicks
    arrive in some order, which need not be that of the clicks.  After a
    run of them the selected type is that of the last answer to arrive that
    succeeded, or the one selected before if none did: a failed answer is
    absorbed, and no other cell of the state changes.  A click whose answer
    arrives before anything else happens is one such arrival. *)
Theorem type_details_last_answer_wins (st : State) (answers : list (option PType)) :
  foldl (λ st answer, typeDetailsArrived answer st) st answers =
    setSelectedType
      match last (omap (λ answer, answer) answers) with
      | Some typeDetails => Some typeDetails
      | None => selectedType st
      end st ∧
  ∀ net typeUrl st',
    handleTypeClick net typeUrl st' =
    typeDetailsArrived (fetchTypeDetails net typeUrl) st'.
Proof.
  split; [|done].
  induction answers as [|answer answers IH] using rev_ind.
  - by destruct st.
  - rewrite foldl_snoc, IH, omap_app, last_app.
    by destruct answer.
Qed.
End sessions.

(** ** The markup of a card *)
Section markup.
Import ViewRoot CardMarkup.

Lemma card_element_id_inj (p q : Pokemon) :
  card_element_id p = card_element_id q → id p = id q.
Proof.
  unfold card_element_id, toString. intros Heq.
  apply (inj (String.append "pokemon-card-")) in Heq.
  by apply (inj pretty) in Heq.
Qed.

Lemma getElementById_distinct (cards : list Pokemon) (pokemon : Pokemon) :
  NoDup (id <$> cards) → pokemon ∈ cards →
  getElementById (card_element_id pokemon) (card_elements cards) = Some pokemon.
Proof.
  unfold card_elements.
  induction cards as [|a cards IH]; csimpl; [by intros _ ?%elem_of_nil|].
  rewrite NoDup_cons, elem_of_cons. intros [Hnin Hnd] [->|Hin].
  - by rewrite decide_True.
  - rewrite decide_False; [by apply IH|].
    intros Heq%card_element_id_inj. apply Hnin. rewrite Heq.
    by apply list_elem_of_fmap_2.
Qed.

(** X19. In every state that a session reaches, looking up the element id
    of a card on screen finds this card: the mouse handlers of a card,
    which go through [getElementById], style their own card. *)
Theorem card_handlers_find_own_card (st : State) (pokemon : Pokemon) :
  reachable st →
  pokemon ∈ cards_shown (Component st) →
  getElementById (card_element_id pokemon)
    (card_elements (cards_shown (Component st))) = Some pokemon.
Proof.
  intros Hreach Hin. apply getElementById_distinct; [|done].
  apply strictly_sorted_distinct_ids.
  pose proof (reachable_store_sorted st Hreach) as Hsorted.
  unfold Component in *. destruct (loading st); [constructor|].
  destruct (error st) as [[|??]|]; simpl; done || constructor.
Qed.

Lemma card_handlers_find_own_card_witness :
  getElementById
    (card_element_id
       {| id := 4; name := "charmander";
          types := [ {| tr_name := "fire"; tr_url := "t/10" |} ];
          moves := [ {| mv_name := "a move"; mv_type := "normal"; mv_url := "m/5" |} ];
          sprite := "4.png"; shinySprite := "s4.png" |})
    (card_elements (cards_shown (Component (fetchPokemon Served.network initial))))
  = Some {| id := 4; name := "charmander";
            types := [ {| tr_name := "fire"; tr_url := "t/10" |} ];
            moves := [ {| mv_name := "a move"; mv_type := "normal"; mv_url := "m/5" |} ];
            sprite := "4.png"; shinySprite := "s4.png" |}.
Proof.
  apply (card_handlers_find_own_card (fetchPokemon Served.network initial)).
  - apply rtc_once, step_fetch.
  - apply list_elem_of_further, list_elem_of_here.
Defined.

Lemma string_length_app (s1 s2 : string) :
  String.length (s1 +:+ s2) = (String.length s1 + String.length s2)%nat.
Proof. induction s1 as [|a s1 IH]; simpl; [done|]. by rewrite IH. Qed.

Lemma string_length_replicate (k : nat) (a : Ascii.ascii) :
  String.length (String.string_of_list_ascii (replicate k a)) = k.
Proof. induction k as [|k IH]; simpl; [done|]. by rewrite IH. Qed.

Lemma pad_fill_zeros (k : nat) (cur : string) :
  cur = "" ∨ cur = "0" →
  pad_fill k cur "0" = String.string_of_list_ascii (replicate k "0"%char).
Proof.
  revert cur. induction k as [|k IH]; intros cur Hcur; [done|].
  destruct Hcur as [-> | ->]; simpl; f_equal; apply IH; auto.
Qed.

Lemma small_number_length (n : Z) :
  0 ≤ n < 1000 → (String.length (toString n) ≤ 3)%nat.
Proof.
  intros Hn.
  assert (Forall (λ i, (String.length (toString i) ≤ 3)%nat) (seqZ 0 1000)) as Hall.
  { apply (bool_decide_unpack _). by vm_compute. }
  rewrite Forall_forall in Hall. apply Hall, elem_of_seqZ. lia.
Qed.

(** X20. The number label of a card is "#", then as many zeros as the
    decimal id lacks to three characters, then the decimal id; for an id
    from 0 to 999 the label has exactly four characters. *)
Theorem number_label_zero_padded (pokemon : Pokemon) :
  0 ≤ id pokemon < 1000 →
  number_label pokemon =
    "#" +:+ String.string_of_list_ascii
              (replicate (3 - String.length (toString (id pokemon))) "0"%char)
        +:+ toString (id pokemon) ∧
  String.length (number_label pokemon) = 4%nat.
Proof.
  intros Hlen%small_number_length.
  unfold number_label, padStart. rewrite pad_fill_zeros by auto.
  split; [done|].
  rewrite !string_length_app, string_length_replicate. simpl. lia.
Qed.

Lemma number_label_zero_padded_witness :
  number_label (Store.bare 25) =
    "#" +:+ String.string_of_list_ascii
              (replicate (3 - String.length (toString (id (Store.bare 25)))) "0"%char)
        +:+ toString (id (Store.bare 25)) ∧
  String.length (number_label (Store.bare 25)) = 4%nat.
Proof.
  apply (number_label_zero_padded (Store.bare 25)). simpl. lia.
Defined.

Example number_labels :
  number_label <$> (Store.bare <$> [7; 25; 150; 1024]) =
  ["#007"; "#025"; "#150"; "#1024"].
Proof. reflexivity. Qed.
End markup.

(** ** Effects over a whole session of clicks *)
Section effect_sessions.
Import Effects.
Implicit Types (clicks : list (Z * Move)) (now t : Z) (move : Move).

Lemma nothing_due_later (ts : list Z) now :
  Forall (λ d, d ≤ now) ts → filter (λ d, now < d) ts = [].
Proof.
  induction 1 as [|d ts Hd _ IH]; [done|].
  rewrite filter_cons, decide_False by lia. done.
Qed.





Lemma last_move_snoc (events : list (Z * Event)) now (event : Event) :
  last_move (events ++ [(now, event)]) =
  match event with
  | MoveClick move => Some move
  | _ => last_move events
  end.
Proof.
  unfold last_move. rewrite omap_app. destruct event; simpl.
  - by rewrite last_snoc.
  - by rewrite app_nil_r.
  - by rewrite app_nil_r.
Qed.

Lemma session_activeEffect (events : list (Z * Event)) (c : Card) effect :
  session events = Some c →
  activeEffect c = Some effect →
  ∃ move, last_move events = Some move ∧
          effect = default glitch (moveTypeEffects !! mv_type move).
Proof.
  revert c. induction events as [|[now event] events IH] using rev_ind;
    intros c; [by intros [= <-]|].
  rewrite session_snoc, last_move_snoc.
  destruct event as [move| |], (session events) as [c0|]; simpl; try done.
  - intros [= <-]. rewrite activeEffect_click. intros [= <-]. by exists move.
  - intros [= <-]. by apply IH.
  - by intros [= <-].
Qed.

(** Every timer of a card on screen was set by a click of its session,
    2000 units before it is due. *)
Lemma session_timers (events : list (Z * Event)) (c : Card) t :
  clicks_expired events t →
  session events = Some c →
  Forall (λ d, d ≤ t) (timers c).
Proof.
  unfold clicks_expired. revert c.
  induction events as [|[now event] events IH] using rev_ind;
    intros c; [intros _ [= <-]; constructor|].
  rewrite Forall_app, Forall_singleton, session_snoc. intros [Hall Hnow].
  destruct event as [move| |], (session events) as [c0|]; simpl in *; try done.
  - intros [= <-]. rewrite timers_click, timers_run_timers.
    apply Forall_app. split; [|by apply Forall_singleton].
    specialize (IH c0 Hall eq_refl). rewrite Forall_forall in IH |- *.
    intros d [_ Hd]%list_elem_of_filter. by apply IH.
  - intros [= <-]. by apply IH.
  - intros [= <-]. constructor.
Qed.

(** X22. Through the life of a card, with its clicks and with the page
    loads that take it off the screen and bring it back, the effect on
    show, whenever there is one, is the effect of the move clicked last
    (no move of the session having a type that [Object.prototype] answers
    for): an earlier effect never comes back. *)
Theorem shown_effect_is_last_clicked
    (events : list (Z * Event)) t (effect : ShaderPreset) :
  modelled events →
  on_screen events t = Some (VFXImg effect) →
  ∃ move, last_move events = Some move ∧
          effect = default glitch (moveTypeEffects !! mv_type move).
Proof.
  intros _. unfold on_screen.
  destruct (session events) as [c|] eqn:Hsession; [|done].
  simpl. intros [= Hshown]. apply (session_activeEffect events c); [done|].
  unfold image_slot in Hshown. rewrite activeEffect_run_timers in Hshown.
  destruct (decide _); [|done].
  by destruct (activeEffect c) as [e|]; [injection Hshown as ->|].
Qed.

Lemma shown_effect_is_last_clicked_witness :
  ∃ move,
    last_move [(0, MoveClick (move_of_type "fire")); (700, Unmount); (900, Mount);
               (1500, MoveClick (move_of_type "water"))] = Some move ∧
    sinewave = default glitch (moveTypeEffects !! mv_type move).
Proof.
  apply (shown_effect_is_last_clicked
           [(0, MoveClick (move_of_type "fire")); (700, Unmount); (900, Mount);
            (1500, MoveClick (move_of_type "water"))] 2500 sinewave).
  - unfold modelled. session_modelled.
  - reflexivity.
Defined.

(** X23. A move clicked on a card that is on screen, when every earlier
    click of the card's session is at least 2000 units old, shows its
    effect for 2000 units, and then the image is back, provided nothing
    else happens to the card meanwhile (no click, and no page load or
    error taking it off the screen) and no move of the session has a type
    that [Object.prototype] answers for. *)
Theorem effect_lasts_after_quiet_period
    (past : list (Z * Event)) now move t :
  modelled (past ++ [(now, MoveClick move)]) →
  is_Some (session past) →
  clicks_expired past now →
  now ≤ t →
  on_screen (past ++ [(now, MoveClick move)]) t =
  Some (if decide (t < now + 2000)
        then VFXImg (default glitch (moveTypeEffects !! mv_type move))
        else PokemonImage).
Proof.
  intros _ [c Hpast] Hexpired _.
  rewrite (on_screen_click past c now t move Hpast). f_equal.
  unfold image_slot.
  rewrite activeEffect_run_timers, timers_click, activeEffect_click.
  assert (timers (run_timers now c) = []) as ->.
  { rewrite timers_run_timers. apply nothing_due_later.
    by apply (session_timers past). }
  simpl. destruct (decide (t < now + 2000)).
  - rewrite decide_True; [done|]. by repeat constructor.
  - rewrite decide_False; [done|]. by intros [? _]%Forall_cons.
Qed.

Lemma effect_lasts_after_quiet_period_witness :
  on_screen
    ([(0, MoveClick (move_of_type "fire")); (500, MoveClick (move_of_type "water"))]
     ++ [(2500, MoveClick (move_of_type "ghost"))]) 4499 =
  Some (if decide (4499 < 2500 + 2000)
        then VFXImg (default glitch (moveTypeEffects !! mv_type (move_of_type "ghost")))
        else PokemonImage).
Proof.
  apply (effect_lasts_after_quiet_period
           [(0, MoveClick (move_of_type "fire")); (500, MoveClick (move_of_type "water"))]
           2500 (move_of_type "ghost") 4499).
  - unfold modelled. simpl. session_modelled.
  - by eexists.
  - unfold clicks_expired. repeat constructor; simpl; lia.
  - lia.
Defined.

(** A page load in the middle of an effect: the card is gone, and the card
    of the next grid shows its image, whatever was pending. *)
Lemma unmount_ends_effect (events : list (Z * Event)) (u u' t : Z) :
  on_screen (events ++ [(u, Unmount)]) t = None ∧
  on_screen (events ++ [(u, Unmount); (u', Mount)]) t = Some PokemonImage.
Proof.
  unfold on_screen.
  change (events ++ [(u, Unmount); (u', Mount)])
    with (events ++ [(u, Unmount)] ++ [(u', Mount)]).
  rewrite app_assoc, !session_snoc. simpl. by destruct (session events).
Qed.

Example page_load_cuts_effect :
  on_screen [(0, MoveClick (move_of_type "fire"))] 600 = Some (VFXImg duotone) ∧
  on_screen [(0, MoveClick (move_of_type "fire")); (500, Unmount); (550, Mount)] 600
    = Some PokemonImage.
Proof. split; reflexivity. Qed.
End effect_sessions.

(** ** The sprite of a card *)
Section sprite.
Import CardView.
Implicit Types (times : list Z) (now t : Z) (pokemon : Pokemon).
Implicit Types (st : State) (s : PokemonImage.State).

Lemma card_session_app (past more : list (Z * Event)) :
  session (past ++ more) = foldl (λ o e, handle e.1 e.2 o) (session past) more.
Proof. unfold session. by rewrite foldl_app. Qed.

Lemma card_session_snoc (past : list (Z * Event)) now (event : Event) :
  session (past ++ [(now, event)]) = handle now event (session past).
Proof. by rewrite card_session_app. Qed.









(** X26. After a click on a move of a card on screen, and as long as
    nothing else happens to the card (no click on a move or on the sprite,
    and no page load or error taking the card off the screen), the card
    shows the plain image: under the effect of the move until the first
    pending revert timer is due, and without any shader afterwards, even if
    the shiny image was on show before the click.  No move of the session
    has a type that [Object.prototype] answers for. *)
Theorem move_click_resets_sprite
    pokemon (past : list (Z * Event)) st now move t :
  modelled (past ++ [(now, MoveClick move)]) →
  session past = Some st →
  now ≤ t →
  on_show pokemon (past ++ [(now, MoveClick move)]) t =
  Some (if decide (Forall (λ d, t < d)
                     (Effects.timers (Effects.run_timers now (card st)))
                   ∧ t < now + 2000)
        then Some (default Effects.glitch (Effects.moveTypeEffects !! mv_type move))
        else None,
        sprite pokemon).
Proof.
  intros _ Hpast _. unfold on_show.
  rewrite card_session_snoc, Hpast.
  change (handle now (MoveClick move) (Some st)) with (Some (move_click now move st)).
  cbn [fmap option_fmap option_map]. f_equal.
  assert (run_timers t (move_click now move st) =
          {| card := Effects.run_timers t (Effects.click now move (card st));
             image :=
               reconcile
                 (Effects.run_timers t (Effects.click now move (card st)))
                 None |}) as -> by done.
  unfold shown, reconcile. cbn [card image].
  rewrite activeEffect_run_timers, timers_click, activeEffect_click.
  destruct (decide (Forall (λ d, t < d)
                      (Effects.timers (Effects.run_timers now (card st)))
                    ∧ t < now + 2000)) as [[Hall Hlt]|Hno].
  - rewrite decide_True; [done|].
    apply Forall_app. split; [done|]. by repeat constructor.
  - rewrite decide_False; [done|].
    intros [Hall [Hlt _]%Forall_cons]%Forall_app. by destruct Hno.
Qed.

Lemma move_click_resets_sprite_witness :
  on_show (Store.named 1 "bulbasaur")
    ([(0, ImageClick)] ++ [(1000, MoveClick (Effects.move_of_type "fire"))]) 3000 =
  Some (if decide (Forall (λ d, 3000 < d)
                     (Effects.timers
                        (Effects.run_timers 1000 (card (image_click 0 initial))))
                   ∧ 3000 < 1000 + 2000)
        then Some (default Effects.glitch
                     (Effects.moveTypeEffects !! mv_type (Effects.move_of_type "fire")))
        else None,
        sprite (Store.named 1 "bulbasaur")).
Proof.
  apply (move_click_resets_sprite (Store.named 1 "bulbasaur")
           [(0, ImageClick)] (image_click 0 initial) 1000
           (Effects.move_of_type "fire") 3000).
  - unfold modelled. simpl. session_modelled.
  - reflexivity.
  - lia.
Defined.

Example shiny_then_move_click :
  on_show (Store.named 1 "bulbasaur") [(0, ImageClick)] 1000
    = Some (None, shinySprite (Store.named 1 "bulbasaur")) ∧
  on_show (Store.named 1 "bulbasaur")
    [(0, ImageClick); (1000, MoveClick (Effects.move_of_type "fire"))] 3000
    = Some (None, sprite (Store.named 1 "bulbasaur")) ∧
  on_show (Store.named 1 "bulbasaur")
    [(0, ImageClick); (500, Unmount); (900, Mount)] 1000
    = Some (None, sprite (Store.named 1 "bulbasaur")).
Proof. split_and!; reflexivity. Qed.
End sprite.

(** ** Dark mode *)
Section dark_mode.
Import DarkMode.
Implicit Types (b : Browser) (st : State) (n : nat).

Lemma classList_remove_absent (token : string) (l : list string) :
  token ∉ l → classList_remove token l = l.
Proof.
  unfold classList_remove. induction l as [|a l IH]; [done|].
  rewrite not_elem_of_cons. intros [Hne Hnin].
  rewrite filter_cons, decide_True by done. by rewrite IH.
Qed.

Lemma elem_of_apply_class (dark : bool) b (token : string) :
  token ∈ classList (apply_class dark b) ↔
  if decide (token = "dark") then dark = true else token ∈ classList b.
Proof.
  unfold apply_class, classList_add, classList_remove. simpl.
  destruct dark.
  - destruct (decide ("dark" ∈ classList b)) as [Hin|Hnin].
    + destruct (decide (token = "dark")) as [->|]; [done|done].
    + rewrite elem_of_app, list_elem_of_singleton.
      destruct (decide (token = "dark")) as [->|]; [tauto|tauto].
  - rewrite list_elem_of_filter.
    destruct (decide (token = "dark")) as [->|]; [|tauto].
    split; [tauto|done].
Qed.

Lemma mount_in_sync b : in_sync (mount b).
Proof.
  unfold in_sync, mount. cbn [fst snd]. split.
  - simpl. by rewrite bool_decide_eq_true.
  - by rewrite elem_of_apply_class, decide_True.
Qed.

Lemma toggle_in_sync st : in_sync (toggleDarkMode st).
Proof.
  unfold in_sync, toggleDarkMode. cbn [fst snd]. split.
  - simpl. rewrite lookup_insert_eq. by destruct (negb st.1).
  - by rewrite elem_of_apply_class, decide_True.
Qed.

Lemma toggles_in_sync b n : in_sync (Nat.iter n toggleDarkMode (mount b)).
Proof. destruct n; simpl; [apply mount_in_sync|apply toggle_in_sync]. Qed.

(** A state in agreement with the browser is what mounting on this
    browser gives. *)
Lemma mount_of_in_sync st : in_sync st → mount st.2 = st.
Proof.
  destruct st as [dark [storage classes]]. unfold in_sync, mount.
  cbn [fst snd localStorage classList]. intros [Hstored Hclass].
  assert (bool_decide (storage !! "darkMode" = Some "true") = dark) as ->.
  { destruct dark.
    - apply bool_decide_eq_true. by apply Hstored.
    - apply bool_decide_eq_false. intros ?%Hstored. done. }
  f_equal. unfold apply_class. cbn [localStorage classList]. f_equal.
  destruct dark.
  - unfold classList_add. rewrite decide_True; [done|]. by apply Hclass.
  - apply classList_remove_absent. intros ?%Hclass. done.
Qed.

(** X27. After the component has mounted, and after any number of
    toggles, its state, the class "dark" on the root element and the
    stored flag agree: the state is on exactly when the class is there,
    and exactly when the stored flag reads "true". *)
Theorem dark_mode_in_sync b n :
  let st := Nat.iter n toggleDarkMode (mount b) in
  (localStorage st.2 !! "darkMode" = Some "true" ↔ st.1 = true) ∧
  ("dark" ∈ classList st.2 ↔ st.1 = true).
Proof. apply toggles_in_sync. Qed.

(** X28. The choice survives a reload: mounting again on the browser as
    the toggles left it gives back the state and the browser as they
    were. *)
Theorem dark_mode_survives_reload b n :
  mount (Nat.iter n toggleDarkMode (mount b)).2 =
  Nat.iter n toggleDarkMode (mount b).
Proof. apply mount_of_in_sync, toggles_in_sync. Qed.

Lemma toggle_frame st :
  (toggleDarkMode st).1 = negb st.1 ∧
  (∀ key, key ≠ "darkMode" →
     localStorage (toggleDarkMode st).2 !! key = localStorage st.2 !! key) ∧
  (∀ token, token ≠ "dark" →
     token ∈ classList (toggleDarkMode st).2 ↔ token ∈ classList st.2).
Proof.
  unfold toggleDarkMode. cbn [fst snd]. split_and!; [done| |].
  - intros key Hne. cbn [apply_class localStorage]. by rewrite lookup_insert_ne.
  - intros token Hne. by rewrite elem_of_apply_class, decide_False.
Qed.

(** X29. Each toggle flips the mode, starting from the stored flag; the
    toggles touch no other key of the storage and no other class of the
    root element. *)
Theorem dark_mode_toggles_flip_and_frame b n :
  let st := Nat.iter n toggleDarkMode (mount b) in
  st.1 = xorb (bool_decide (localStorage b !! "darkMode" = Some "true")) (Nat.odd n) ∧
  (∀ key, key ≠ "darkMode" → localStorage st.2 !! key = localStorage b !! key) ∧
  (∀ token, token ≠ "dark" → token ∈ classList st.2 ↔ token ∈ classList b).
Proof.
  cbn zeta. induction n as [|n IH].
  - change (Nat.iter 0 toggleDarkMode (mount b)) with (mount b).
    unfold mount. cbn [fst snd]. split_and!; [by rewrite xorb_false_r|done|].
    intros token Hne. by rewrite elem_of_apply_class, decide_False.
  - change (Nat.iter (S n) toggleDarkMode (mount b))
      with (toggleDarkMode (Nat.iter n toggleDarkMode (mount b))).
    destruct IH as (Hmode & Hkeys & Hclasses).
    destruct (toggle_frame (Nat.iter n toggleDarkMode (mount b)))
      as (Hmode' & Hkeys' & Hclasses').
    rewrite Nat.odd_succ, <-Nat.negb_odd. split_and!.
    + rewrite Hmode', Hmode. by destruct (bool_decide _), (Nat.odd n).
    + intros key Hne. by rewrite Hkeys', Hkeys.
    + intros token Hne. by rewrite Hclasses', Hclasses.
Qed.
End dark_mode.
